(** * google-ads-api: the service layer and the client constructor

    A shallow embedding of [src/service.ts] (class [Service]) and of the
    client module (class [Client]), with the properties the specification
    states about them.

    JavaScript objects are finite maps from property names to values
    ([gmap string _]); objects that the code mutates in place live in a heap
    and are passed around by reference.  A call that can throw returns an
    [Outcome]. *)

From Stdlib Require Import ZArith NArith String List Lia.
From stdpp Require Import gmap strings list fin_maps.

Local Open Scope string_scope.
Local Set Warnings "-register-all".

(** ** Errors and outcomes of calls *)

Record JsError := mkError { err_name : string; err_message : string }.

Inductive Outcome (A : Type) : Type :=
| Returns (a : A)
| Throws (e : JsError).
Arguments Returns {A} a.
Arguments Throws {A} e.

Definition obind {A B} (m : Outcome A) (k : A -> Outcome B) : Outcome B :=
  match m with
  | Returns a => k a
  | Throws e => Throws e
  end.

Notation "'try' x <- m ; k" := (obind m (fun x => k))
  (at level 10, x name, m at level 100, k at level 200).

Definition TypeError (msg : string) : JsError := mkError "TypeError" msg.
Definition PlainError (msg : string) : JsError := mkError "Error" msg.

(** ** JavaScript values *)

Module JS.

Abbreviation loc := nat (only parsing).

(** Objects are references into a heap; arrays are immutable here (no
    function of the model writes into one) and are carried by value.
    [VMask] is a protobuf [FieldMask] with its paths. *)
Inductive val : Type :=
| VUndefined
| VNull
| VBool (b : bool)
| VNum (n : Z)
| VStr (s : string)
| VArr (items : list val)
| VRef (r : loc)
| VMask (paths : list string).

(** What [JSON.parse] returns. *)
Inductive json : Type :=
| JNull
| JBool (b : bool)
| JNum (n : Z)
| JStr (s : string)
| JArr (items : list json)
| JObj (members : list (string * json)).

(** [String.prototype.includes]. *)
Fixpoint includes (s sub : string) : bool :=
  String.prefix sub s ||
  match s with
  | EmptyString => false
  | String _ rest => includes rest sub
  end.

(** ToBoolean. *)
Definition truthy (v : val) : bool :=
  match v with
  | VUndefined | VNull => false
  | VBool b => b
  | VNum n => negb (n =? 0)%Z
  | VStr s => negb (String.eqb s "")
  | VArr _ | VRef _ | VMask _ => true
  end.

Definition nullish (v : val) : bool :=
  match v with
  | VUndefined | VNull => true
  | _ => false
  end.

(** ToBoolean of a string-valued option ([undefined] when [None]). *)
Definition truthy_string (o : option string) : bool :=
  match o with
  | Some s => negb (String.eqb s "")
  | None => false
  end.

(** The property [k] of a parsed document: reading a property of [null]
    throws, a primitive or an array has none of the properties read here,
    and of a repeated member the parser keeps the last. *)
Definition json_get (j : json) (k : string) : Outcome (option json) :=
  match j with
  | JNull => Throws (TypeError ("Cannot read properties of null (reading '" +:+ k +:+ "')"))
  | JObj members =>
      Returns (snd <$> List.find (fun m => String.eqb (fst m) k) (rev members))
  | _ => Returns None
  end.

End JS.

(** ** Error translator: [getGoogleAdsError], [decodePartialFailureError] *)

Module ErrorTranslator.
Import JS.

Abbreviation Buffer := (list Byte.byte) (only parsing).

(** Modelled from the spec: the generated protobuf message types
    [errors.GoogleAdsError] and [errors.GoogleAdsFailure] are declared in
    [./protos], which is not among the sources.  A failure is "a list of
    sub-errors, each with a kind and message, optionally mapped back to the
    originating operation index". *)
Record GoogleAdsError := mkGoogleAdsError {
  error_kind : string;
  error_message : string;
  operation_index : option Z
}.

Record GoogleAdsFailure := mkGoogleAdsFailure {
  errors : list GoogleAdsError;
  request_id : string
}.

(** An entry of [partial_failure_error.details]. *)
Record Detail := mkDetail { type_url : string; value : Buffer }.

(** What a property of a mutate response, or of the object that
    [decodePartialFailureError] returns, can hold. *)
Inductive Field : Type :=
| FValue (v : val)
| FPartialFailure (details : option (list Detail))
| FFailures (fs : list GoogleAdsFailure).

(** grpc's [Metadata]: [internalRepr] is a [Map] from keys to the list of
    values sent under that key. *)
Record Metadata := mkMetadata { internalRepr : gmap string (list Buffer) }.

(** A transport error: an [Error], with the call's metadata when the
    transport attached it. *)
Record TransportError := mkTransportError {
  error : JsError;
  metadata : option Metadata
}.

Section Translator.

(** [googleAdsVersion], from [./version]. *)
Variable googleAdsVersion : string.

(** [errors.GoogleAdsFailure.decode]: the protobuf decoder, which throws on
    a malformed buffer. *)
Variable decode : Buffer -> Outcome GoogleAdsFailure.

Definition FAILURE_KEY : string :=
  "google.ads.googleads." +:+ googleAdsVersion +:+ ".errors.googleadsfailure-bin".

Definition decodeGoogleAdsFailureBuffer (buffer : Buffer) : Outcome GoogleAdsFailure :=
  try googleAdsFailure <- decode buffer;
  Returns googleAdsFailure.

(** [error?.metadata?.internalRepr.get(FAILURE_KEY)]. *)
Definition failure_entry (e : TransportError) : option (list Buffer) :=
  md ← metadata e; internalRepr md !! FAILURE_KEY.

(** The destructuring [const [buffer] = ...] of an empty list binds
    [undefined], which the decoder rejects. *)
Definition getGoogleAdsError (e : TransportError)
  : Outcome (TransportError + GoogleAdsFailure) :=
  match failure_entry e with
  | None => Returns (inl e)
  | Some values =>
      match values with
      | buffer :: _ =>
          try failure <- decodeGoogleAdsFailureBuffer buffer;
          Returns (inr failure)
      | [] => Throws (PlainError "illegal buffer")
      end
  end.

Definition is_failure_detail (d : Detail) : bool :=
  includes (type_url d) "errors.GoogleAdsFailure".

(** [response.partial_failure_error?.details]: [undefined] unless the
    property holds an object with a [details] list. *)
Definition details_of (response : gmap string Field) : option (list Detail) :=
  match response !! "partial_failure_error" with
  | Some (FPartialFailure details) => details
  | _ => None
  end.

(** [response.partial_failure_error?.details?.find(...)?.value]. *)
Definition failure_buffer (response : gmap string Field) : option Buffer :=
  details ← details_of response;
  d ← List.find is_failure_detail details;
  Some (value d).

Definition decodePartialFailureError (response : gmap string Field)
  : Outcome (gmap string Field) :=
  let mutate_operation_responses : list GoogleAdsFailure := [] in
  try mutate_operation_responses <-
    match failure_buffer response with
    | Some buffer =>
        try decodedError <- decodeGoogleAdsFailureBuffer buffer;
        if (0 <? length (errors decodedError))%nat
        then Returns [decodedError]
        else Returns mutate_operation_responses
    | None => Returns mutate_operation_responses
    end;
  Returns {[ "mutate_operation_responses" := FFailures mutate_operation_responses ]}.

End Translator.

End ErrorTranslator.

(** ** Service cache: [serviceCache], [getCredentials], [loadService] *)

Module ServiceCache.
Import JS.

(** The client options as [service.ts] reads them. *)
Record ClientOptions := mkClientOptions {
  client_id : string;
  client_secret : string;
  developer_token : string;
  service_account_key_file : option string
}.

Record CustomerOptions := mkCustomerOptions {
  customer_id : string;
  login_customer_id : option string;
  linked_customer_id : option string;
  refresh_token : option string
}.

(** The fields of a [Service] that the functions below read. *)
Record Service := mkService {
  clientOptions : ClientOptions;
  customerOptions : CustomerOptions
}.

Inductive AuthClient : Type :=
| JWT (email key : option json) (scopes : list string)
| UserRefreshClient (id secret : string) (token : option string).

(** [combineChannelCredentials(sslCreds, createFromGoogleCredential(authClient))]. *)
Record ChannelCredentials := mkChannelCredentials { auth_client : AuthClient }.

(** A service stub.  [stub_id] is the identity of the instance: the number
    of stubs constructed before it. *)
Record Stub := mkStub {
  stub_id : nat;
  stub_service : string;
  stub_credentials : ChannelCredentials
}.

(** What the package [google-ads-node] exports under a name. *)
Inductive Export : Type := ClientClass | OtherExport.

(** *** The cache

    Modelled from the spec: the class [TTLCache] comes from the package
    [@isaacs/ttlcache], which is not among the sources.  It is "a
    time-to-live keyed cache mapping a service name to an initialized remote
    stub, evicting and closing stale entries", with "a bounded maximum entry
    count" and eviction by "TTL expiry or capacity eviction", each eviction
    calling the [dispose] callback.  Entries are kept in insertion order,
    which is the order of their expiry times, the TTL being the same for
    all. *)
Record Entry := mkEntry {
  entry_key : string;
  entry_value : Stub;
  entry_expires : N
}.

Definition max : nat := 1000.
Definition ttl : N := 10 * 60 * 1000.

Definition has_key (key : string) (e : Entry) : bool := String.eqb (entry_key e) key.

Definition has (key : string) (cache : list Entry) : bool :=
  existsb (has_key key) cache.

Definition get (key : string) (cache : list Entry) : option Stub :=
  entry_value <$> List.find (has_key key) cache.

(** Evict the entries that expire soonest until [max] are left. *)
Definition purgeToCapacity (cache : list Entry) : list Entry * list Stub :=
  let excess := (length cache - max)%nat in
  (drop excess cache, entry_value <$> take excess cache).

(** [set] disposes of a different value stored under the key, stores the new
    one with a fresh TTL, and evicts down to the capacity. *)
Definition set (key : string) (v : Stub) (now : N) (cache : list Entry)
  : list Entry * list Stub :=
  let replaced :=
    match get key cache with
    | Some old => if Nat.eqb (stub_id old) (stub_id v) then [] else [old]
    | None => []
    end in
  let stored :=
    (filter (fun e => entry_key e ≠ key) cache
       ++ [mkEntry key v (now + ttl)])%list in
  let '(kept, evicted) := purgeToCapacity stored in
  (kept, (replaced ++ evicted)%list).

(** The expiry timer: every entry whose time has come is removed and
    disposed of. *)
Definition purgeStale (now : N) (cache : list Entry) : list Entry * list Stub :=
  (filter (fun e => (now < entry_expires e)%N) cache,
   entry_value <$> filter (fun e => (entry_expires e ≤ now)%N) cache).

(** *** The state around the cache

    The module-level [serviceCache], the clock, the [close()] calls the
    stubs have received so far (by [stub_id], in order), and the number of
    stubs constructed so far. *)
Record World := mkWorld {
  now : N;
  serviceCache : list Entry;
  closed : list nat;
  constructed : nat
}.

(** [dispose: (service) => { service.close(); }]. *)
Definition dispose (disposed : list Stub) (log : list nat) : list nat :=
  (log ++ (stub_id <$> disposed))%list.

Definition init : World := mkWorld 0 [] [] 0.

(** A string option that is set and truthy. *)
Definition provided (o : option string) : option string :=
  match o with
  | Some s => if String.eqb s "" then None else Some s
  | None => None
  end.

Definition dquote : string := String (Ascii.ascii_of_nat 34) EmptyString.

Section Loader.

(** [fs.readFileSync(path, 'utf8')] and [JSON.parse]. *)
Variable readFileSync : string -> Outcome string.
Variable JSON_parse : string -> Outcome json.

(** [require("google-ads-node")]: the exports of the package. *)
Variable google_ads_node : gmap string Export.

Definition getCredentials (this : Service) : Outcome ChannelCredentials :=
  try authClient <-
    match provided (service_account_key_file (clientOptions this)) with
    | Some path =>
        try keyFileContent <- readFileSync path;
        try keyFile <- JSON_parse keyFileContent;
        try email <- json_get keyFile "client_email";
        try key <- json_get keyFile "private_key";
        Returns (JWT email key ["https://www.googleapis.com/auth/adwords"])
    | None =>
        Returns (UserRefreshClient
                   (client_id (clientOptions this))
                   (client_secret (clientOptions this))
                   (refresh_token (customerOptions this)))
    end;
  Returns (mkChannelCredentials authClient).

(** [loadService].  The result is [None] where the source returns
    [undefined] (a [get] that finds nothing). *)
Definition loadService (this : Service) (service : string) (w : World)
  : Outcome (option Stub) * World :=
  let serviceCacheKey := service in
  if has serviceCacheKey (serviceCache w) then
    (Returns (get serviceCacheKey (serviceCache w)), w)
  else
    match google_ads_node !! service with
    | None =>
        (Throws (PlainError ("Service " +:+ dquote +:+ service +:+ dquote
                             +:+ " could not be found")), w)
    | Some protoService =>
        match getCredentials this with
        | Throws e => (Throws e, w)
        | Returns sslCreds =>
            match protoService with
            | OtherExport => (Throws (TypeError "protoService is not a constructor"), w)
            | ClientClass =>
                let client := mkStub (constructed w) service sslCreds in
                let '(kept, disposed) := set serviceCacheKey client (now w) (serviceCache w) in
                (Returns (Some client),
                 mkWorld (now w) kept (dispose disposed (closed w)) (S (constructed w)))
            end
        end
    end.

(** Time passes: the clock advances and the expiry timer fires. *)
Definition elapse (dt : N) (w : World) : World :=
  let now' := (now w + dt)%N in
  let '(kept, disposed) := purgeStale now' (serviceCache w) in
  mkWorld now' kept (dispose disposed (closed w)) (constructed w).

(** What happens to the cache over time: calls of [loadService], by any
    [Service] instance, and time passing in between. *)
Inductive Action : Type :=
| Load (this : Service) (service : string)
| Elapse (dt : N).

Definition step (w : World) (a : Action) : World :=
  match a with
  | Load this service => snd (loadService this service w)
  | Elapse dt => elapse dt w
  end.

Definition run (trace : list Action) (w : World) : World :=
  fold_left step trace w.

Definition duration (a : Action) : N :=
  match a with
  | Load _ _ => 0
  | Elapse dt => dt
  end.

Definition elapsed (trace : list Action) : N :=
  fold_right (fun a t => (duration a + t)%N) 0%N trace.

Definition loads (service : string) (a : Action) : bool :=
  match a with
  | Load _ s => String.eqb s service
  | Elapse _ => false
  end.

End Loader.

End ServiceCache.

(** ** Request builder: [buildMutationRequestAndService], [buildOperations] *)

Module RequestBuilder.
Import JS.

Abbreviation Heap := (gmap nat (gmap string val)) (only parsing).

Inductive OperationType : Type := create | update | remove.

Definition type_name (type : OperationType) : string :=
  match type with
  | create => "create"
  | update => "update"
  | remove => "remove"
  end.

Definition is_create (type : OperationType) : bool :=
  match type with create => true | _ => false end.

Definition is_update (type : OperationType) : bool :=
  match type with update => true | _ => false end.

(** [v.k], for a [v] that is neither [undefined] nor [null]. *)
Definition get_property (h : Heap) (v : val) (k : string) : val :=
  match v with
  | VRef r =>
      match h !! r with
      | Some o => default VUndefined (o !! k)
      | None => VUndefined
      end
  | VArr items => if String.eqb k "length" then VNum (Z.of_nat (length items)) else VUndefined
  | VStr s => if String.eqb k "length" then VNum (Z.of_nat (String.length s)) else VUndefined
  | VMask paths => if String.eqb k "paths" then VArr (VStr <$> paths) else VUndefined
  | _ => VUndefined
  end.

(** [v?.k]. *)
Definition get_optional (h : Heap) (v : val) (k : string) : val :=
  if nullish v then VUndefined else get_property h v k.

(** [delete v.k]: the object itself loses the property. *)
Definition delete_property (h : Heap) (v : val) (k : string)
  : Heap :=
  match v with
  | VRef r => alter (delete k) r h
  | _ => h
  end.

(** [...v] in an object literal: the own properties of an object; nothing
    for [undefined] and [null].  (A resource is a record,
    [T extends Record<string, unknown>].) *)
Definition own_properties (h : Heap) (v : val) : gmap string val :=
  match v with
  | VRef r => default ∅ (h !! r)
  | _ => ∅
  end.

(** A mutation handed to [buildMutationRequestAndService]
    ([MutateOperation<T>] of [./types]); [operation] may be left out. *)
Record Mutation := mkMutation {
  operation : option OperationType;
  resource : val;
  entity : string;
  exempt_policy_violation_keys : val
}.

(** [new services.MutateOperation({ [key]: operation })]. *)
Record MutateOperation := mkMutateOperation {
  operation_key : string;
  operation_value : gmap string val
}.

(** The request: [MutateOptions], of [./types], is left open; the options
    given are spread into the request after the two fields set here. *)
Record MutateGoogleAdsRequest (MutateOptions : Type) := mkMutateGoogleAdsRequest {
  request_customer_id : string;
  mutate_operations : list MutateOperation;
  request_options : option MutateOptions
}.
Arguments mkMutateGoogleAdsRequest {MutateOptions} _ _ _.
Arguments request_customer_id {MutateOptions} _.
Arguments mutate_operations {MutateOptions} _.
Arguments request_options {MutateOptions} _.

(** [Array.prototype.map] with a callback that works on the heap and can
    throw: the entities are visited in order, and a throw ends the visit. *)
Fixpoint map_in_heap {A B : Type}
    (f : A -> Heap -> Outcome B * Heap)
    (items : list A) (h : Heap)
  : Outcome (list B) * Heap :=
  match items with
  | [] => (Returns [], h)
  | item :: rest =>
      match f item h with
      | (Returns b, h1) =>
          match map_in_heap f rest h1 with
          | (Returns bs, h2) => (Returns (b :: bs), h2)
          | (Throws err, h2) => (Throws err, h2)
          end
      | (Throws err, h1) => (Throws err, h1)
      end
  end.

Section Builder.

(** A protobuf message type ([message?: Ent]), with its static
    [toObject(e, { defaults: false })]: it reads the entity and returns a
    fresh plain object, given here as a reference into the heap extended
    with it.  The entity is left as it is. *)
Variable Message : Type.
Variable toObject : Message -> Heap -> val
                    -> Heap * val.

(** [MutateOptions], from [./types]. *)
Variable MutateOptions : Type.

(** [getFieldMask] and [toSnakeCase], from [./utils]. *)
Variable getFieldMask : Heap -> val -> list string.
Variable toSnakeCase : string -> string.

(** The environment of [loadService]. *)
Variable readFileSync : string -> Outcome string.
Variable JSON_parse : string -> Outcome json.
Variable google_ads_node : gmap string ServiceCache.Export.

(** The callback of [mutations.map] in [buildMutationRequestAndService]:
    the properties of the resource are spread last, over the others. *)
Definition mutation_operation (h : Heap) (mutation : Mutation)
  : gmap string val :=
  own_properties h (resource mutation) ∪
  <[ "update_mask" :=
       match operation mutation with
       | Some update => VMask (getFieldMask h (resource mutation))
       | _ => VUndefined
       end ]>
  (<[ "exempt_policy_violation_keys" := exempt_policy_violation_keys mutation ]>
  (<[ "entity" := VStr (entity mutation) ]>
  (<[ "resource" := resource mutation ]>
  {[ "operation" := VStr (type_name (default create (operation mutation))) ]}))).

Definition mutateOperation (h : Heap) (mutation : Mutation)
  : MutateOperation :=
  mkMutateOperation (toSnakeCase (entity mutation +:+ "Operation"))
                    (mutation_operation h mutation).

Definition buildMutationRequestAndService
    (this : ServiceCache.Service) (h : Heap)
    (mutations : list Mutation) (options : option MutateOptions)
    (w : ServiceCache.World)
  : Outcome (option ServiceCache.Stub * MutateGoogleAdsRequest MutateOptions)
    * ServiceCache.World :=
  match ServiceCache.loadService readFileSync JSON_parse google_ads_node
          this "GoogleAdsServiceClient" w with
  | (Returns service, w') =>
      let mutateOperations := mutateOperation h <$> mutations in
      let request :=
        mkMutateGoogleAdsRequest
          (ServiceCache.customer_id (ServiceCache.customerOptions this))
          mutateOperations options in
      (Returns (service, request), w')
  | (Throws err, w') => (Throws err, w')
  end.

(** The callback of [entities.map] in [buildOperations]. *)
Definition build_operation (type : OperationType) (message : option Message)
    (e : val) (h : Heap)
  : Outcome (gmap string val) * Heap :=
  let op : gmap string val :=
    <[ "operation" := VStr (type_name type) ]> {[ type_name type := e ]} in
  if is_create type
     && truthy (get_optional h (get_optional h e "exempt_policy_violation_keys") "length")
  then
    (Returns (<[ "exempt_policy_violation_keys" :=
                   get_property h e "exempt_policy_violation_keys" ]> op),
     delete_property h e "exempt_policy_violation_keys")
  else if is_update type then
    match message with
    | None =>
        (Throws (TypeError "Cannot read properties of undefined (reading 'toObject')"), h)
    | Some m =>
        let '(h_plain, plain) := toObject m h e in
        (Returns (<[ "update_mask" := VMask (getFieldMask h_plain plain) ]> op), h)
    end
  else (Returns op, h).

Definition buildOperations (type : OperationType) (entities : list val)
    (message : option Message) (h : Heap)
  : Outcome (list (gmap string val)) * Heap :=
  map_in_heap (build_operation type message) entities h.

End Builder.

End RequestBuilder.

(** ** Credential provider: the constructor of [Client] *)

Module Credentials.
Import JS.

Record ClientOptions := mkClientOptions {
  client_id : string;
  client_secret : string;
  developer_token : string;
  disable_parsing : option bool;
  service_account_key : option string;
  login_customer_id : option string
}.

(** [accessToken: string | null], and what an assignment of
    [response.data.access_token] leaves in it ([None] for [undefined]). *)
Inductive Token : Type :=
| NoToken
| AccessToken (t : option json).

Record Client := mkClient {
  options : ClientOptions;
  accessToken : Token
}.

Record JwtPayload := mkJwtPayload {
  iss : option json;
  sub : option json;
  aud : string;
  iat : Z;
  exp : Z;
  scope : string
}.

Record TokenData := mkTokenData { grant_type : string; assertion : string }.

Record HttpRequest := mkHttpRequest { url : string; body : TokenData }.

(** What comes back for a request: a reply with its status and body, or no
    reply at all. *)
Inductive HttpReply : Type :=
| Reply (status : Z) (data : json)
| NoReply (e : JsError).

(** How a promise settles. *)
Inductive Settled (A : Type) : Type :=
| Fulfilled (a : A)
| Rejected (e : JsError).
Arguments Fulfilled {A} a.
Arguments Rejected {A} e.

(** The effects of a call: the HTTP requests issued, the errors written with
    [console.error], and the promises that were created and then dropped
    (neither awaited, returned nor given a handler), each with the way it
    settles. *)
Record World := mkWorld {
  requests : list HttpRequest;
  console : list JsError;
  dropped : list (Settled Token)
}.

Definition quiet : World := mkWorld [] [] [].

Section Constructor.

(** [JSON.parse], [Date.now()] and [jwt.sign] of [jsonwebtoken]. *)
Variable JSON_parse : string -> Outcome json.
Variable Date_now : Z.
Variable jwt_sign : JwtPayload -> option json -> string -> Outcome string.

(** The token endpoint, as seen from the client. *)
Variable token_endpoint : HttpRequest -> HttpReply.

(** [axios.post]: the request is issued; the promise is fulfilled with the
    response when the status is 2xx and rejected otherwise. *)
Definition axios_post (target : string) (data : TokenData) (w : World)
  : Settled json * World :=
  let request := mkHttpRequest target data in
  let w' := mkWorld (requests w ++ [request])%list (console w) (dropped w) in
  match token_endpoint request with
  | Reply status data =>
      if ((200 <=? status) && (status <? 300))%Z
      then (Fulfilled data, w')
      else (Rejected (mkError "AxiosError" "Request failed"), w')
  | NoReply e => (Rejected e, w')
  end.

Definition console_error (e : JsError) (w : World) : World :=
  mkWorld (requests w) (console w ++ [e])%list (dropped w).

Definition generateJWT (serviceAccountKey : json) : Outcome string :=
  let iat := (Date_now / 1000)%Z in
  let exp := (iat + 3600)%Z in
  try iss <- json_get serviceAccountKey "client_email";
  try sub <- json_get serviceAccountKey "client_email";
  let jwtPayload :=
    mkJwtPayload iss sub "https://oauth2.googleapis.com/token" iat exp
                 "https://www.googleapis.com/auth/adwords" in
  try private_key <- json_get serviceAccountKey "private_key";
  jwt_sign jwtPayload private_key "RS256".

(** The [async] method: the result is the promise it returns, given by the
    way it settles.  Fulfilled, it has stored the token in
    [this.accessToken]; rejected, it has logged the error and rethrown it
    into the promise. *)
Definition exchangeJWTForAccessToken (jwtToken : string) (w : World)
  : Settled Token * World :=
  let tokenUrl := "https://oauth2.googleapis.com/token" in
  let tokenData :=
    mkTokenData "urn:ietf:params:oauth:grant-type:jwt-bearer" jwtToken in
  match axios_post tokenUrl tokenData w with
  | (Fulfilled data, w1) =>
      match json_get data "access_token" with
      | Returns t => (Fulfilled (AccessToken t), w1)
      | Throws err => (Rejected err, console_error err w1)
      end
  | (Rejected err, w1) => (Rejected err, console_error err w1)
  end.

(** The promise of [exchangeJWTForAccessToken] is dropped: the statement is
    the bare call. *)
Definition initializeServiceAccountFlow (this : Client) (w : World)
  : Outcome unit * World :=
  if truthy_string (service_account_key (options this)) then
    match JSON_parse (default "" (service_account_key (options this))) with
    | Throws err => (Throws err, w)
    | Returns serviceAccountKey =>
        match generateJWT serviceAccountKey with
        | Throws err => (Throws err, w)
        | Returns jwtToken =>
            let '(promise, w1) := exchangeJWTForAccessToken jwtToken w in
            (Returns tt, mkWorld (requests w1) (console w1) (dropped w1 ++ [promise])%list)
        end
    end
  else (Throws (PlainError "Service account key is not provided"), w).

(** [new Client(options)]. *)
Definition constructor (opts : ClientOptions) (w : World) : Outcome Client * World :=
  let this := mkClient opts NoToken in
  if truthy_string (service_account_key opts) then
    match initializeServiceAccountFlow this w with
    | (Returns _, w1) => (Returns this, w1)
    | (Throws err, w1) => (Throws err, w1)
    end
  else (Returns this, w).

(** The client once a promise of the exchange has settled. *)
Definition settle (this : Client) (promise : Settled Token) : Client :=
  match promise with
  | Fulfilled token => mkClient (options this) token
  | Rejected _ => this
  end.

End Constructor.

End Credentials.


(** ** The rest of [Service]: headers, search requests, [buildRequest] *)

Module ServiceRequests.
Import JS ServiceCache.

(** The getter [callHeaders]. *)
Definition callHeaders (this : Service) : gmap string string :=
  let headers : gmap string string :=
    {[ "developer-token" := developer_token (clientOptions this) ]} in
  let headers :=
    match provided (login_customer_id (customerOptions this)) with
    | Some id => <[ "login-customer-id" := id ]> headers
    | None => headers
    end in
  let headers :=
    match provided (linked_customer_id (customerOptions this)) with
    | Some id => <[ "linked-customer-id" := id ]> headers
    | None => headers
    end in
  headers.

(** The getter [credentials]. *)
Record CustomerCredentials := mkCustomerCredentials {
  credentials_customer_id : string;
  credentials_login_customer_id : option string;
  credentials_linked_customer_id : option string
}.

Definition credentials (this : Service) : CustomerCredentials :=
  mkCustomerCredentials (customer_id (customerOptions this))
                        (login_customer_id (customerOptions this))
                        (linked_customer_id (customerOptions this)).

(** [...options] in an object literal, for options that may be left out. *)
Definition spread (options : option (gmap string val)) : gmap string val :=
  default ∅ options.



(** What a property of the object built by [buildRequest] holds. *)
Inductive RequestField : Type :=
| FieldValue (v : val)
| FieldOperations (operations : list (gmap string val)).

Section Requests.

Variable readFileSync : string -> Outcome string.
Variable JSON_parse : string -> Outcome json.
Variable google_ads_node : gmap string Export.



End Requests.

(** [buildRequest]: [{ customer_id, operations, ...options }]. *)
Definition buildRequest (this : Service) (operations : list (gmap string val))
    (options : option (gmap string val)) : gmap string RequestField :=
  (FieldValue <$> spread options) ∪
  <[ "operations" := FieldOperations operations ]>
  {[ "customer_id" := FieldValue (VStr (customer_id (customerOptions this))) ]}.

End ServiceRequests.
(** * Sample data and the properties as the specification words them *)

Module ErrorTranslatorSamples.
Import JS ErrorTranslator.

(** Sample data: a decoder that reads the number of sub-errors off the
    length of the buffer, and a few responses. *)
Definition sub_error (n : nat) : GoogleAdsError :=
  mkGoogleAdsError "request_error" "rejected" (Some (Z.of_nat n)).

Definition sample_decode (buffer : list Byte.byte) : Outcome GoogleAdsFailure :=
  Returns (mkGoogleAdsFailure (sub_error <$> seq 0 (length buffer)) "req-1").

Definition failure_url : string :=
  "type.googleapis.com/google.ads.googleads.v15.errors.GoogleAdsFailure".

Definition other_url : string := "type.googleapis.com/google.rpc.DebugInfo".

Definition response_with (details : list Detail) : gmap string Field :=
  <[ "partial_failure_error" := FPartialFailure (Some details) ]>
  {[ "results" := FValue (VNum 1) ]}.

Definition response_plain : gmap string Field :=
  {[ "results" := FValue (VNum 1) ]}.


End ErrorTranslatorSamples.

Module RequestBuilderSamples.
Import JS RequestBuilder.

(** The envelope before any optional field is attached:
    [{ [type]: e, operation: type }]. *)
Definition envelope (type : OperationType) (e : val) : gmap string val :=
  <[ "operation" := VStr (type_name type) ]> {[ type_name type := e ]}.

(** The test of the [create] branch of [buildOperations]. *)
Definition moves_keys (h : Heap) (e : val) : bool :=
  truthy (get_optional h (get_optional h e "exempt_policy_violation_keys") "length").

(** An operation carries an update mask when its [update_mask] property
    holds a value. *)
Definition carries_mask (op : gmap string val) : Prop :=
  ∃ v, op !! "update_mask" = Some v ∧ v ≠ VUndefined.

(** C7 as the specification words it, read on the entities as the caller
    passes them: each entity that carries a non-empty list of exemption keys
    gets an operation with the keys on the envelope, and ends up without
    them. *)
Definition keys_moved_for_every_entity
    (entities : list val) (h : Heap)
    (ops : list (gmap string val)) (h' : Heap) : Prop :=
  ∀ i r o keys,
    entities !! i = Some (VRef r) →
    h !! r = Some o →
    o !! "exempt_policy_violation_keys" = Some (VArr keys) →
    keys ≠ [] →
    ∃ op o', ops !! i = Some op
             ∧ op !! "exempt_policy_violation_keys" = Some (VArr keys)
             ∧ op !! "create" = Some (VRef r)
             ∧ h' !! r = Some o'
             ∧ o' !! "exempt_policy_violation_keys" = None.

(** A message type whose [toObject] hands back the entity's own
    properties, a [getFieldMask] that lists the names of the properties set,
    and a [toSnakeCase] for the one key used below. *)
Definition sample_toObject (_ : unit) (h : Heap) (e : val)
  : Heap * val := (h, e).

Definition sample_getFieldMask (h : Heap) (v : val) : list string :=
  fst <$> map_to_list (own_properties h v).

Definition sample_toSnakeCase (s : string) : string :=
  if String.eqb s "campaignOperation" then "campaign_operation" else s.

Definition ad : gmap string val :=
  <[ "exempt_policy_violation_keys" := VArr [VStr "POLICY_X"] ]> {[ "name" := VStr "ad" ]}.

Definition campaign : gmap string val := {[ "name" := VStr "campaign" ]}.

Definition masked : gmap string val :=
  <[ "update_mask" := VMask ["status"] ]> {[ "name" := VStr "campaign" ]}.

Definition sample_heap : Heap :=
  <[ 2%nat := masked ]> (<[ 1%nat := campaign ]> {[ 0%nat := ad ]}).

Definition no_file (path : string) : Outcome string :=
  Throws (PlainError ("ENOENT: no such file or directory, open " +:+ path)).

Definition no_json (text : string) : Outcome json :=
  Throws (mkError "SyntaxError" "Unexpected end of JSON input").

Definition sample_exports : gmap string ServiceCache.Export :=
  {[ "GoogleAdsServiceClient" := ServiceCache.ClientClass ]}.

Definition sample_service : ServiceCache.Service :=
  ServiceCache.mkService
    (ServiceCache.mkClientOptions "id" "secret" "token" None)
    (ServiceCache.mkCustomerOptions "1234567890" None None (Some "refresh")).

(** A [create] of the resource that has a property [update_mask] of its
    own, and an [update] of the plain campaign. *)
Definition create_masked : Mutation :=
  mkMutation (Some create) (VRef 2) "campaign" VUndefined.

Definition update_campaign : Mutation :=
  mkMutation (Some update) (VRef 1) "campaign" VUndefined.

Definition sample_stub : ServiceCache.Stub :=
  ServiceCache.mkStub 0 "GoogleAdsServiceClient"
    (ServiceCache.mkChannelCredentials
       (ServiceCache.UserRefreshClient "id" "secret" (Some "refresh"))).

End RequestBuilderSamples.

Module CredentialsSamples.
Import JS Credentials.

Definition quoted (s : string) : string :=
  ServiceCache.dquote +:+ s +:+ ServiceCache.dquote.

(** A well-formed key document, and a [JSON.parse] that knows it and
    rejects every other text, as the real one rejects the two malformed
    texts used below: the empty text and [{not json]. *)
Definition key_text : string :=
  "{" +:+ quoted "client_email" +:+ ":" +:+ quoted "robot@project.iam.gserviceaccount.com"
  +:+ "," +:+ quoted "private_key" +:+ ":" +:+ quoted "PEM" +:+ "}".

Definition key_document : json :=
  JObj [("client_email", JStr "robot@project.iam.gserviceaccount.com");
        ("private_key", JStr "PEM")].

Definition sample_parse (text : string) : Outcome json :=
  if String.eqb text key_text then Returns key_document
  else Throws (mkError "SyntaxError" "Unexpected token in JSON").

Definition sample_sign (payload : JwtPayload) (key : option json) (algorithm : string)
  : Outcome string :=
  match key with
  | Some (JStr _) => Returns "header.payload.signature"
  | _ => Throws (PlainError "secretOrPrivateKey must have a value")
  end.

Definition endpoint_granting (request : HttpRequest) : HttpReply :=
  Reply 200 (JObj [("access_token", JStr "ya29.token")]).


Definition options_with (key : option string) : ClientOptions :=
  mkClientOptions "id" "secret" "token" None key None.

Definition exchange_request : HttpRequest :=
  mkHttpRequest "https://oauth2.googleapis.com/token"
    (mkTokenData "urn:ietf:params:oauth:grant-type:jwt-bearer" "header.payload.signature").

(** C6 as the specification words it: whenever the key document fails to
    parse, the construction throws and no request has been issued. *)
Definition malformed_key_throws
    (JSON_parse : string → Outcome json)
    (construct : ClientOptions → World → Outcome Client * World) : Prop :=
  ∀ opts key err,
    service_account_key opts = Some key →
    JSON_parse key = Throws err →
    ∃ err' w', construct opts quiet = (Throws err', w') ∧ requests w' = [].

End CredentialsSamples.

Module ServiceCacheSamples.
Import JS ServiceCache.

(** The number of [close()] calls a stub has received. *)
Definition close_calls (a : Stub) (w : World) : nat :=
  count_occ Nat.eq_dec (closed w) (stub_id a).

(** What holds of the cache in every state it can reach: one entry per
    service name, all for exported names; every stub in it was constructed
    earlier, is in it once, and has not been closed; no stub has been closed
    twice. *)
Record consistent (google_ads_node : gmap string Export) (w : World) : Prop := {
  keys_distinct : NoDup (entry_key <$> serviceCache w);
  keys_exported : ∀ e, e ∈ serviceCache w → is_Some (google_ads_node !! entry_key e);
  stubs_distinct : NoDup (stub_id ∘ entry_value <$> serviceCache w);
  stubs_constructed : ∀ e, e ∈ serviceCache w → (stub_id (entry_value e) < constructed w)%nat;
  stubs_open : ∀ e, e ∈ serviceCache w → stub_id (entry_value e) ∉ closed w;
  closed_constructed : ∀ id, id ∈ closed w → (id < constructed w)%nat;
  closed_once : NoDup (closed w)
}.

Definition two_services : gmap string Export :=
  <[ "CampaignServiceClient" := ClientClass ]> {[ "GoogleAdsServiceClient" := ClientClass ]}.

Definition customer : Service :=
  mkService (mkClientOptions "id" "secret" "token" None)
            (mkCustomerOptions "1234567890" None None (Some "refresh")).

Definition read_nothing (path : string) : Outcome string :=
  Throws (PlainError ("ENOENT: no such file or directory, open " +:+ path)).

Definition parse_nothing (text : string) : Outcome json :=
  Throws (mkError "SyntaxError" "Unexpected end of JSON input").

Definition first_stub : Stub :=
  mkStub 0 "GoogleAdsServiceClient"
    (mkChannelCredentials (UserRefreshClient "id" "secret" (Some "refresh"))).

End ServiceCacheSamples.

Module ExtraSamples.
Import JS ServiceCache RequestBuilder.

(** A customer session with a login customer id and an empty linked
    customer id. *)
Definition manager_session : Service :=
  mkService (mkClientOptions "id" "secret" "dev-token" None)
            (mkCustomerOptions "1234567890" (Some "9999999999") (Some "") (Some "refresh")).

(** A second session, of another customer and with another refresh token. *)
Definition other_session : Service :=
  mkService (mkClientOptions "id" "secret" "dev-token" None)
            (mkCustomerOptions "5555555555" None None (Some "other-refresh")).

(** A session that authenticates with a key file. *)
Definition key_file_session : Service :=
  mkService (mkClientOptions "id" "secret" "dev-token" (Some "/etc/key.json"))
            (mkCustomerOptions "1234567890" None None None).

(** A [remove] that carries exemption keys. *)
Definition remove_with_keys : Mutation :=
  mkMutation (Some remove) (VRef 1) "campaign" (VArr [VStr "POLICY_X"]).

Definition page_options : gmap string val := {[ "page_size" := VNum 100 ]}.

End ExtraSamples.

(** * Properties *)

(** ** Error translator *)

Module ErrorTranslatorFacts.
Import JS ErrorTranslator ErrorTranslatorSamples.

Lemma find_of_filter {A} (p : A → bool) (l : list A) :
  List.find p l = head (List.filter p l).
Proof.
  induction l as [|a l IH]; simpl; [done|].
  destruct (p a); [done|apply IH].
Qed.

Section Facts.

Variable googleAdsVersion : string.
Variable decode : list Byte.byte → Outcome GoogleAdsFailure.

Lemma failure_buffer_found response details d :
  details_of response = Some details →
  List.find is_failure_detail details = Some d →
  failure_buffer response = Some (value d).
Proof. intros Hd Hf. unfold failure_buffer. rewrite Hd. simpl. by rewrite Hf. Qed.

Lemma failure_buffer_none response :
  (∀ details, details_of response = Some details →
              List.filter is_failure_detail details = []) →
  failure_buffer response = None.
Proof.
  intros H. unfold failure_buffer.
  destruct (details_of response) as [details|] eqn:Hd; [|done].
  simpl. rewrite find_of_filter, (H details eq_refl). done.
Qed.

Lemma decode_no_buffer response :
  failure_buffer response = None →
  decodePartialFailureError decode response
  = Returns {[ "mutate_operation_responses" := FFailures [] ]}.
Proof. intros H. unfold decodePartialFailureError. by rewrite H. Qed.

Lemma decode_buffer response buffer f :
  failure_buffer response = Some buffer →
  decode buffer = Returns f →
  decodePartialFailureError decode response
  = Returns {[ "mutate_operation_responses" :=
                 FFailures (if (0 <? length (errors f))%nat then [f] else []) ]}.
Proof.
  intros Hb Hd. unfold decodePartialFailureError, decodeGoogleAdsFailureBuffer.
  rewrite Hb, Hd. simpl. by destruct (0 <? length (errors f))%nat.
Qed.


(** C2: with exactly one matching detail, whose payload decodes to a failure
    with 2 sub-errors, [mutate_operation_responses] has length 1 and its
    entry has an [errors] list of length 2; with no matching detail it is
    the empty list. *)
Theorem partial_failure_extraction response :
  (∀ details d f,
      details_of response = Some details →
      List.filter is_failure_detail details = [d] →
      decode (value d) = Returns f →
      length (errors f) = 2%nat →
      ∃ fs, decodePartialFailureError decode response
            = Returns {[ "mutate_operation_responses" := FFailures fs ]}
            ∧ length fs = 1%nat
            ∧ ∀ entry, entry ∈ fs → length (errors entry) = 2%nat)
  ∧ ((∀ details, details_of response = Some details →
                 List.filter is_failure_detail details = []) →
     decodePartialFailureError decode response
     = Returns {[ "mutate_operation_responses" := FFailures [] ]}).
Proof.
  split.
  - intros details d f Hd Hfilter Hdec Hlen.
    assert (Hfind : List.find is_failure_detail details = Some d)
      by (by rewrite find_of_filter, Hfilter).
    rewrite (decode_buffer _ _ _ (failure_buffer_found _ _ _ Hd Hfind) Hdec).
    rewrite Hlen. simpl. exists [f]. split; [done|]. split; [done|].
    intros entry Hin. by apply list_elem_of_singleton in Hin as ->.
  - intros Hnone. apply decode_no_buffer, failure_buffer_none, Hnone.
Qed.

(** C3: a transport error whose metadata holds nothing under [FAILURE_KEY]
    (or that has no metadata) comes back as it is, and no decoder is asked:
    the result is the same whatever the decoder would do. *)
Theorem getGoogleAdsError_passes_through (e : TransportError) :
  (∀ md, metadata e = Some md → internalRepr md !! FAILURE_KEY googleAdsVersion = None) →
  getGoogleAdsError googleAdsVersion decode e = Returns (inl e)
  ∧ ∀ decode', getGoogleAdsError googleAdsVersion decode' e = Returns (inl e).
Proof.
  intros H.
  assert (Hentry : failure_entry googleAdsVersion e = None).
  { unfold failure_entry. destruct (metadata e) as [md|]; simpl; [by apply H|done]. }
  unfold getGoogleAdsError. rewrite Hentry. done.
Qed.


End Facts.


Lemma partial_failure_extraction_witness :
  (∃ fs, decodePartialFailureError sample_decode
           (response_with [mkDetail other_url [Byte.x00];
                           mkDetail failure_url [Byte.x0a; Byte.x0b]])
         = Returns {[ "mutate_operation_responses" := FFailures fs ]}
         ∧ length fs = 1%nat
         ∧ ∀ entry, entry ∈ fs → length (errors entry) = 2%nat)
  ∧ decodePartialFailureError sample_decode
      (response_with [mkDetail other_url [Byte.x00]])
    = Returns {[ "mutate_operation_responses" := FFailures [] ]}.
Proof.
  split.
  - eapply (proj1 (partial_failure_extraction sample_decode _));
      [reflexivity|reflexivity|reflexivity|reflexivity].
  - apply (proj2 (partial_failure_extraction sample_decode _)).
    intros details Hd. injection Hd as <-. reflexivity.
Defined.

Lemma getGoogleAdsError_passes_through_witness :
  getGoogleAdsError "v15" sample_decode
    (mkTransportError (PlainError "14 UNAVAILABLE")
       (Some (mkMetadata {[ "content-type" := [[Byte.x61]] ]})))
  = Returns (inl (mkTransportError (PlainError "14 UNAVAILABLE")
       (Some (mkMetadata {[ "content-type" := [[Byte.x61]] ]})))).
Proof.
  apply (getGoogleAdsError_passes_through "v15" sample_decode).
  intros md Hmd. injection Hmd as <-. reflexivity.
Defined.


End ErrorTranslatorFacts.

(** ** Request builder *)

Module RequestBuilderFacts.
Import JS RequestBuilder RequestBuilderSamples.

Lemma lookup_delete_property h v k r :
  delete_property h v k !! r
  = match v with
    | VRef r0 => if decide (r0 = r) then delete k <$> h !! r else h !! r
    | _ => h !! r
    end.
Proof.
  destruct v; simpl; try done.
  case_decide as Hr.
  - subst. apply lookup_alter_eq.
  - by apply lookup_alter_ne.
Qed.

Lemma moves_keys_list h r o keys :
  h !! r = Some o →
  o !! "exempt_policy_violation_keys" = Some (VArr keys) →
  keys ≠ [] →
  moves_keys h (VRef r) = true
  ∧ get_property h (VRef r) "exempt_policy_violation_keys" = VArr keys.
Proof.
  intros Hr Ho Hk. unfold moves_keys, get_optional. simpl.
  rewrite Hr, Ho. simpl. split; [|done].
  destruct keys; [done|]. done.
Qed.

Lemma moves_keys_absent h r :
  (∀ o, h !! r = Some o → o !! "exempt_policy_violation_keys" = None) →
  moves_keys h (VRef r) = false.
Proof.
  intros H. unfold moves_keys, get_optional. simpl.
  destruct (h !! r) as [o|]; [|done].
  by rewrite (H o eq_refl).
Qed.

Lemma moves_keys_ref h e :
  moves_keys h e = true → ∃ r o, e = VRef r ∧ h !! r = Some o.
Proof.
  unfold moves_keys, get_optional.
  destruct e as [| |b|n|s|items|r|paths]; cbn; try done.
  destruct (h !! r) as [o|] eqn:Hr; [eauto|done].
Qed.

Lemma length_after_delete h e v :
  get_optional (delete_property h e "exempt_policy_violation_keys") v "length"
  = get_optional h v "length".
Proof.
  unfold get_optional. destruct v as [| |b|n|s|items|r|paths]; simpl; try done.
  rewrite lookup_delete_property.
  destruct e as [| |b|n|s|items|r0|paths]; try done.
  case_decide; [|done]. subst r0.
  destruct (h !! r) as [o|]; simpl; [|done].
  by rewrite lookup_delete_ne.
Qed.

Lemma moves_keys_after_delete h e r :
  moves_keys h (VRef r) = false →
  moves_keys (delete_property h e "exempt_policy_violation_keys") (VRef r) = false.
Proof.
  intros H. destruct e as [| |b|n|s|items|r0|paths]; try exact H.
  unfold moves_keys in *. rewrite length_after_delete.
  destruct (decide (r0 = r)) as [->|Hne].
  - replace (get_optional (delete_property h (VRef r) "exempt_policy_violation_keys")
               (VRef r) "exempt_policy_violation_keys") with VUndefined; [done|].
    unfold get_optional, get_property, delete_property. simpl.
    rewrite lookup_alter_eq.
    destruct (h !! r) as [o|]; simpl; [|done].
    by rewrite lookup_delete_eq.
  - replace (get_optional (delete_property h (VRef r0) "exempt_policy_violation_keys")
               (VRef r) "exempt_policy_violation_keys")
      with (get_optional h (VRef r) "exempt_policy_violation_keys"); [done|].
    unfold get_optional, get_property, delete_property. simpl.
    by rewrite lookup_alter_ne.
Qed.

Lemma moves_keys_once h r :
  moves_keys (delete_property h (VRef r) "exempt_policy_violation_keys") (VRef r) = false.
Proof.
  apply moves_keys_absent. intros o. rewrite lookup_delete_property.
  rewrite decide_True by done.
  destruct (h !! r) as [o0|]; simpl; [|done].
  intros [= <-]. apply lookup_delete_eq.
Qed.

Section Facts.

Variable Message : Type.
Variable toObject : Message → Heap → val
                    → Heap * val.
Variable getFieldMask : Heap → val → list string.

Lemma build_create message e h :
  build_operation Message toObject getFieldMask create message e h
  = if moves_keys h e
    then (Returns (<[ "exempt_policy_violation_keys" :=
                        get_property h e "exempt_policy_violation_keys" ]>
                   (envelope create e)),
          delete_property h e "exempt_policy_violation_keys")
    else (Returns (envelope create e), h).
Proof. unfold build_operation, moves_keys. simpl. by destruct (truthy _). Qed.

Lemma build_update m e h :
  build_operation Message toObject getFieldMask update (Some m) e h
  = (Returns (<[ "update_mask" :=
                   VMask (getFieldMask (toObject m h e).1 (toObject m h e).2) ]>
              (envelope update e)), h).
Proof. unfold build_operation. simpl. by destruct (toObject m h e). Qed.

Lemma build_remove message e h :
  build_operation Message toObject getFieldMask remove message e h
  = (Returns (envelope remove e), h).
Proof. done. Qed.

Lemma buildOperations_cons type e es message h :
  buildOperations Message toObject getFieldMask type (e :: es) message h
  = match build_operation Message toObject getFieldMask type message e h with
    | (Returns op, h1) =>
        match buildOperations Message toObject getFieldMask type es message h1 with
        | (Returns ops, h2) => (Returns (op :: ops), h2)
        | (Throws err, h2) => (Throws err, h2)
        end
    | (Throws err, h1) => (Throws err, h1)
    end.
Proof. done. Qed.

(** One [create] step: the envelope built and the heap left. *)
Lemma create_step message e h :
  ∃ op h1,
    build_operation Message toObject getFieldMask create message e h = (Returns op, h1)
    ∧ op !! "create" = Some e
    ∧ op !! "update_mask" = None
    ∧ (∀ r, e ≠ VRef r → h1 !! r = h !! r)
    ∧ (∀ r, h1 !! r = h !! r
            ∨ ∃ o, h !! r = Some o
                   ∧ h1 !! r = Some (delete "exempt_policy_violation_keys" o))
    ∧ (∀ r o keys,
          e = VRef r → h !! r = Some o →
          o !! "exempt_policy_violation_keys" = Some (VArr keys) → keys ≠ [] →
          op !! "exempt_policy_violation_keys" = Some (VArr keys)
          ∧ h1 !! r = Some (delete "exempt_policy_violation_keys" o))
    ∧ (∀ r, e = VRef r →
            (∀ o, h !! r = Some o → o !! "exempt_policy_violation_keys" = None) →
            op !! "exempt_policy_violation_keys" = None).
Proof.
  rewrite build_create.
  destruct (moves_keys h e) eqn:Hmove.
  - destruct (moves_keys_ref _ _ Hmove) as (r0 & o0 & -> & Hr0).
    eexists _, _. split; [reflexivity|].
    split; [done|]. split; [done|].
    split; [|split; [|split]].
    + intros r Hne. rewrite lookup_delete_property.
      case_decide; [congruence|done].
    + intros r. rewrite lookup_delete_property.
      case_decide as Hr; [|by left]. subst r0. right. exists o0.
      by rewrite Hr0.
    + intros r o keys [= ->] Hr Ho Hk.
      destruct (moves_keys_list _ _ _ _ Hr Ho Hk) as [_ Hget].
      rewrite Hget. split; [by rewrite lookup_insert_eq|].
      rewrite lookup_delete_property. rewrite decide_True by done.
      by rewrite Hr.
    + intros r [= ->] Hnone.
      by rewrite (moves_keys_absent _ _ Hnone) in Hmove.
  - eexists _, _. split; [reflexivity|].
    split; [done|]. split; [done|].
    split; [done|]. split; [by left|]. split.
    + intros r o keys -> Hr Ho Hk.
      destruct (moves_keys_list _ _ _ _ Hr Ho Hk) as [Hm _]. congruence.
    + intros r -> _. done.
Qed.

Lemma create_returns message es h :
  ∃ ops h',
    buildOperations Message toObject getFieldMask create es message h = (Returns ops, h')
    ∧ length ops = length es.
Proof.
  revert h. induction es as [|e es IH]; intros h.
  - by exists [], h.
  - rewrite buildOperations_cons.
    destruct (create_step message e h) as (op & h1 & -> & _).
    destruct (IH h1) as (ops & h' & -> & Hlen).
    exists (op :: ops), h'. split; [done|]. simpl. by rewrite Hlen.
Qed.

(** Over a whole [create] call, an object of the heap is left as it is or
    loses its [exempt_policy_violation_keys]. *)
Lemma create_frame message es h ops h' :
  buildOperations Message toObject getFieldMask create es message h = (Returns ops, h') →
  ∀ r, h' !! r = h !! r
       ∨ ∃ o, h !! r = Some o
              ∧ h' !! r = Some (delete "exempt_policy_violation_keys" o).
Proof.
  revert h ops h'. induction es as [|e es IH]; intros h ops h' Hrun r.
  - injection Hrun as <- <-. by left.
  - rewrite buildOperations_cons in Hrun.
    destruct (create_step message e h) as (op & h1 & Hstep & _ & _ & _ & Hframe & _).
    rewrite Hstep in Hrun.
    destruct (create_returns message es h1) as (ops1 & h2 & Hrest & _).
    rewrite Hrest in Hrun. injection Hrun as <- <-.
    destruct (IH _ _ _ Hrest r) as [Heq|(o1 & Ho1 & Hh2)];
      destruct (Hframe r) as [Heq1|(o & Ho & Hh1)].
    + left. congruence.
    + right. exists o. split; [done|]. congruence.
    + right. exists o1. split; congruence.
    + right. exists o. split; [done|].
      rewrite Hh2. rewrite Hh1 in Ho1. injection Ho1 as <-.
      by rewrite delete_delete_eq.
Qed.

(** The operations of a [create] call alias the entities. *)
Lemma create_aliases message es h ops h' :
  buildOperations Message toObject getFieldMask create es message h = (Returns ops, h') →
  ∀ i e, es !! i = Some e →
         ∃ op, ops !! i = Some op ∧ op !! "create" = Some e ∧ op !! "update_mask" = None.
Proof.
  revert h ops h'. induction es as [|e0 es IH]; intros h ops h' Hrun i e Hi.
  - by rewrite lookup_nil in Hi.
  - rewrite buildOperations_cons in Hrun.
    destruct (create_step message e0 h) as (op & h1 & Hstep & Hcreate & Hmask & _).
    rewrite Hstep in Hrun.
    destruct (create_returns message es h1) as (ops1 & h2 & Hrest & _).
    rewrite Hrest in Hrun. injection Hrun as <- <-.
    destruct i as [|i]; simpl in *.
    + injection Hi as <-. eauto.
    + eapply IH; eauto.
Qed.

(** An entity that carries a non-empty list of keys has lost it after a
    [create] call, however often it is listed. *)
Lemma create_strips message es h ops h' :
  buildOperations Message toObject getFieldMask create es message h = (Returns ops, h') →
  ∀ r o keys,
    VRef r ∈ es → h !! r = Some o →
    o !! "exempt_policy_violation_keys" = Some (VArr keys) → keys ≠ [] →
    h' !! r = Some (delete "exempt_policy_violation_keys" o).
Proof.
  revert h ops h'. induction es as [|e es IH]; intros h ops h' Hrun r o keys Hin Hr Ho Hk.
  - by apply elem_of_nil in Hin.
  - rewrite buildOperations_cons in Hrun.
    destruct (create_step message e h) as (op & h1 & Hstep & _ & _ & Hother & _ & Hmoved & _).
    rewrite Hstep in Hrun.
    destruct (create_returns message es h1) as (ops1 & h2 & Hrest & _).
    rewrite Hrest in Hrun. injection Hrun as <- <-.
    assert (Hcase : e = VRef r ∨ (e ≠ VRef r ∧ VRef r ∈ es)).
    { apply elem_of_cons in Hin as [<-|Hin]; [by left|].
      destruct e as [| |b|n|s|items|r0|paths]; try (right; split; [discriminate|done]).
      destruct (decide (r0 = r)) as [->|Hne]; [by left|].
      right. split; [congruence|done]. }
    destruct Hcase as [->|[Hne Hin']].
    + destruct (Hmoved r o keys eq_refl Hr Ho Hk) as [_ Hh1].
      destruct (create_frame _ _ _ _ _ Hrest r) as [Heq|(o1 & Ho1 & Hh2)].
      * congruence.
      * rewrite Hh2. rewrite Hh1 in Ho1. injection Ho1 as <-.
        by rewrite delete_delete_eq.
    + eapply IH; eauto. by rewrite (Hother r Hne).
Qed.

(** The operation built from the first listing of an entity that carries a
    non-empty list of keys has the keys on its envelope. *)
Lemma create_moves_first message es h ops h' :
  buildOperations Message toObject getFieldMask create es message h = (Returns ops, h') →
  ∀ i r o keys,
    es !! i = Some (VRef r) → VRef r ∉ take i es → h !! r = Some o →
    o !! "exempt_policy_violation_keys" = Some (VArr keys) → keys ≠ [] →
    ∃ op, ops !! i = Some op
          ∧ op !! "exempt_policy_violation_keys" = Some (VArr keys).
Proof.
  revert h ops h'. induction es as [|e es IH];
    intros h ops h' Hrun i r o keys Hi Hfirst Hr Ho Hk.
  - by rewrite lookup_nil in Hi.
  - rewrite buildOperations_cons in Hrun.
    destruct (create_step message e h) as (op & h1 & Hstep & _ & _ & Hother & _ & Hmoved & _).
    rewrite Hstep in Hrun.
    destruct (create_returns message es h1) as (ops1 & h2 & Hrest & _).
    rewrite Hrest in Hrun. injection Hrun as <- <-.
    destruct i as [|i]; simpl in *.
    + injection Hi as ->.
      destruct (Hmoved r o keys eq_refl Hr Ho Hk) as [Hop _]. eauto.
    + apply not_elem_of_cons in Hfirst as [Hne Hfirst].
      eapply IH; eauto. rewrite (Hother r); [done|congruence].
Qed.

(** Once an entity carries no keys that would be moved, the operations
    built from it have none on the envelope. *)
Lemma create_settled message es h ops h' r :
  buildOperations Message toObject getFieldMask create es message h = (Returns ops, h') →
  moves_keys h (VRef r) = false →
  ∀ i, es !! i = Some (VRef r) →
       ∃ op, ops !! i = Some op ∧ op !! "exempt_policy_violation_keys" = None.
Proof.
  revert h ops h'. induction es as [|e es IH]; intros h ops h' Hrun Hset i Hi.
  - by rewrite lookup_nil in Hi.
  - rewrite buildOperations_cons, build_create in Hrun.
    assert (Hnext : moves_keys (if moves_keys h e
                                then delete_property h e "exempt_policy_violation_keys"
                                else h) (VRef r) = false).
    { destruct (moves_keys h e); [by apply moves_keys_after_delete|done]. }
    destruct i as [|i]; simpl in Hi.
    + injection Hi as ->. rewrite Hset in Hrun, Hnext.
      destruct (create_returns message es h) as (ops1 & h2 & Hrest & _).
      rewrite Hrest in Hrun. injection Hrun as <- <-.
      eexists. split; [done|]. done.
    + destruct (moves_keys h e).
      * destruct (create_returns message es
                    (delete_property h e "exempt_policy_violation_keys"))
          as (ops1 & h2 & Hrest & _).
        rewrite Hrest in Hrun. injection Hrun as <- <-. simpl. eapply IH; eauto.
      * destruct (create_returns message es h) as (ops1 & h2 & Hrest & _).
        rewrite Hrest in Hrun. injection Hrun as <- <-. simpl. eapply IH; eauto.
Qed.

(** So an operation built from an entity that is listed earlier in the same
    call has no keys on its envelope. *)
Lemma create_repeated message es h ops h' :
  buildOperations Message toObject getFieldMask create es message h = (Returns ops, h') →
  ∀ i r, es !! i = Some (VRef r) → VRef r ∈ take i es →
         ∃ op, ops !! i = Some op ∧ op !! "exempt_policy_violation_keys" = None.
Proof.
  revert h ops h'. induction es as [|e es IH]; intros h ops h' Hrun i r Hi Hin.
  - by rewrite lookup_nil in Hi.
  - destruct i as [|i]; simpl in Hi, Hin; [by apply elem_of_nil in Hin|].
    rewrite buildOperations_cons, build_create in Hrun.
    assert (Hcase : e = VRef r ∨ VRef r ∈ take i es).
    { apply elem_of_cons in Hin as [<-|Hin]; [by left|by right]. }
    destruct (moves_keys h e) eqn:Hmove.
    + destruct (create_returns message es
                  (delete_property h e "exempt_policy_violation_keys"))
        as (ops1 & h2 & Hrest & _).
      rewrite Hrest in Hrun. injection Hrun as <- <-. simpl.
      destruct Hcase as [->|Hin'].
      * eapply create_settled; eauto. apply moves_keys_once.
      * eapply IH; eauto.
    + destruct (create_returns message es h) as (ops1 & h2 & Hrest & _).
      rewrite Hrest in Hrun. injection Hrun as <- <-. simpl.
      destruct Hcase as [->|Hin'].
      * eapply create_settled; eauto.
      * eapply IH; eauto.
Qed.

(** A call that is not a [create] leaves the heap as it is, throwing or
    not, and attaches no exemption keys. *)
Lemma other_heap type message es h :
  type ≠ create →
  (buildOperations Message toObject getFieldMask type es message h).2 = h.
Proof.
  intros Htype. revert h. induction es as [|e es IH]; intros h; [done|].
  rewrite buildOperations_cons.
  destruct type; [done| |].
  - destruct message as [m|]; [|done].
    rewrite build_update. specialize (IH h).
    by destruct (buildOperations _ _ _ _ _ _ _) as [[ops|err] h2].
  - rewrite build_remove. specialize (IH h).
    by destruct (buildOperations _ _ _ _ _ _ _) as [[ops|err] h2].
Qed.

Lemma other_operations type message es h ops h' :
  type ≠ create →
  buildOperations Message toObject getFieldMask type es message h = (Returns ops, h') →
  length ops = length es
  ∧ ∀ op, op ∈ ops →
          op !! "exempt_policy_violation_keys" = None
          ∧ (carries_mask op ↔ type = update).
Proof.
  intros Htype. revert h ops h'. induction es as [|e es IH]; intros h ops h' Hrun.
  - injection Hrun as <- <-. split; [done|]. intros op Hin. by apply elem_of_nil in Hin.
  - rewrite buildOperations_cons in Hrun.
    destruct type; [done| |].
    + destruct message as [m|]; [|done].
      rewrite build_update in Hrun.
      destruct (buildOperations _ _ _ _ _ _ _) as [[ops1|err] h2] eqn:Hrest; [|done].
      injection Hrun as <- <-.
      destruct (IH _ _ _ Hrest) as [Hlen Hops].
      split; [simpl; by rewrite Hlen|].
      intros op [->|Hin]%elem_of_cons; [|by apply Hops].
      split; [done|]. split; [done|]. intros _.
      eexists. split; [apply lookup_insert_eq|done].
    + rewrite build_remove in Hrun.
      destruct (buildOperations _ _ _ _ _ _ _) as [[ops1|err] h2] eqn:Hrest; [|done].
      injection Hrun as <- <-.
      destruct (IH _ _ _ Hrest) as [Hlen Hops].
      split; [simpl; by rewrite Hlen|].
      intros op [->|Hin]%elem_of_cons; [|by apply Hops].
      split; [done|]. split; [|done]. intros (v & Hv & _). done.
Qed.

(** C7, as the code has it.  A [create] call returns one operation per
    entity.  The operation built from the first listing of an entity that
    carries a non-empty list of exemption keys has the keys on its envelope
    and the entity as its [create] payload, and the entity has lost the
    keys; an operation built from an entity listed earlier in the same call
    has no keys on its envelope, the first having taken them.  The
    operations of an [update] or [remove] call have none. *)
Theorem exemption_keys_move_to_envelope message entities h :
  (∃ ops h',
      buildOperations Message toObject getFieldMask create entities message h
      = (Returns ops, h')
      ∧ length ops = length entities
      ∧ (∀ i r o keys,
            entities !! i = Some (VRef r) →
            VRef r ∉ take i entities →
            h !! r = Some o →
            o !! "exempt_policy_violation_keys" = Some (VArr keys) →
            keys ≠ [] →
            ∃ op o', ops !! i = Some op
                     ∧ op !! "exempt_policy_violation_keys" = Some (VArr keys)
                     ∧ op !! "create" = Some (VRef r)
                     ∧ h' !! r = Some o'
                     ∧ o' !! "exempt_policy_violation_keys" = None)
      ∧ (∀ i r,
            entities !! i = Some (VRef r) →
            VRef r ∈ take i entities →
            ∃ op, ops !! i = Some op
                  ∧ op !! "exempt_policy_violation_keys" = None))
  ∧ (∀ type ops h',
        type ≠ create →
        buildOperations Message toObject getFieldMask type entities message h
        = (Returns ops, h') →
        ∀ op, op ∈ ops → op !! "exempt_policy_violation_keys" = None).
Proof.
  split.
  - destruct (create_returns message entities h) as (ops & h' & Hrun & Hlen).
    exists ops, h'. split; [done|]. split; [done|]. split.
    + intros i r o keys Hi Hfirst Hr Ho Hk.
      destruct (create_moves_first _ _ _ _ _ Hrun i r o keys Hi Hfirst Hr Ho Hk)
        as (op & Hop & Hkeys).
      destruct (create_aliases _ _ _ _ _ Hrun i _ Hi) as (op' & Hop' & Hcreate & _).
      assert (op' = op) as -> by congruence.
      exists op, (delete "exempt_policy_violation_keys" o).
      split; [done|]. split; [done|]. split; [done|]. split.
      * eapply create_strips; eauto. eapply list_elem_of_lookup_2; eauto.
      * apply lookup_delete_eq.
    + intros i r Hi Hin. eapply create_repeated; eauto.
  - intros type ops h' Htype Hrun op Hin.
    destruct (other_operations _ _ _ _ _ _ Htype Hrun) as [_ Hops].
    by apply Hops.
Qed.

(** C10: a [create] call changes the caller's own entities.  Each operation
    holds the entity itself as its [create] payload (the same reference),
    and every entity that carried a non-empty list of exemption keys is the
    same object minus that property once the call is over.  An [update] or
    a [remove] call leaves the heap, and so every entity, as it was. *)
Theorem buildOperations_mutates_entities message entities h :
  (∃ ops h',
      buildOperations Message toObject getFieldMask create entities message h
      = (Returns ops, h')
      ∧ (∀ i e, entities !! i = Some e →
                ∃ op, ops !! i = Some op ∧ op !! "create" = Some e)
      ∧ (∀ r o keys,
            VRef r ∈ entities →
            h !! r = Some o →
            o !! "exempt_policy_violation_keys" = Some (VArr keys) →
            keys ≠ [] →
            h' !! r = Some (delete "exempt_policy_violation_keys" o)
            ∧ delete "exempt_policy_violation_keys" o
                !! "exempt_policy_violation_keys" = None))
  ∧ (∀ type, type ≠ create →
             (buildOperations Message toObject getFieldMask type entities message h).2
             = h).
Proof.
  split.
  - destruct (create_returns message entities h) as (ops & h' & Hrun & Hlen).
    exists ops, h'. split; [done|]. split.
    + intros i e Hi.
      destruct (create_aliases _ _ _ _ _ Hrun i e Hi) as (op & Hop & Hcreate & _).
      eauto.
    + intros r o keys Hin Hr Ho Hk. split; [|apply lookup_delete_eq].
      eapply create_strips; eauto.
  - intros type Htype. by apply other_heap.
Qed.

Variable MutateOptions : Type.
Variable toSnakeCase : string → string.
Variable readFileSync : string → Outcome string.
Variable JSON_parse : string → Outcome json.
Variable google_ads_node : gmap string ServiceCache.Export.

Lemma mutation_operation_mask h mutation :
  own_properties h (resource mutation) !! "update_mask" = None →
  mutation_operation getFieldMask h mutation !! "update_mask"
  = Some match operation mutation with
         | Some update => VMask (getFieldMask h (resource mutation))
         | _ => VUndefined
         end.
Proof.
  intros Hnone. unfold mutation_operation.
  rewrite lookup_union_r by done. by rewrite lookup_insert_eq.
Qed.

(** C8, as the code has it.  An operation returned by [buildOperations]
    carries an update mask exactly when the call is an [update].  In
    the operations that [buildMutationRequestAndService] puts into the
    request, one per mutation and in order, [update_mask] holds a field mask
    exactly when the mutation is an [update], as long as the resource has
    no property of that name: the properties of the resource are spread
    over the envelope last. *)
Theorem update_mask_only_for_update :
  (∀ type entities message h ops h',
      buildOperations Message toObject getFieldMask type entities message h
      = (Returns ops, h') →
      ∀ op, op ∈ ops → (carries_mask op ↔ type = update))
  ∧ (∀ this h mutations options w service request w',
        buildMutationRequestAndService MutateOptions getFieldMask toSnakeCase
          readFileSync JSON_parse google_ads_node this h mutations options w
        = (Returns (service, request), w') →
        mutate_operations request
        = mutateOperation getFieldMask toSnakeCase h <$> mutations
        ∧ ∀ mutation,
            mutation ∈ mutations →
            own_properties h (resource mutation) !! "update_mask" = None →
            (carries_mask (mutation_operation getFieldMask h mutation)
             ↔ operation mutation = Some update)).
Proof.
  split.
  - intros type entities message h ops h' Hrun op Hin.
    assert (type = create ∨ type ≠ create) as [->|Htype]
      by (destruct type; [by left|by right|by right]).
    + apply list_elem_of_lookup in Hin as [i Hi].
      destruct (create_returns message entities h) as (ops' & h'' & Hrun' & Hlen).
      assert (ops' = ops) as -> by congruence.
      destruct (lookup_lt_is_Some_2 entities i) as [e He].
      { rewrite <- Hlen. eapply lookup_lt_Some; eauto. }
      destruct (create_aliases _ _ _ _ _ Hrun i e He) as (op' & Hop' & _ & Hmask).
      assert (op' = op) as -> by congruence.
      split; [|done]. intros (v & Hv & _). congruence.
    + destruct (other_operations _ _ _ _ _ _ Htype Hrun) as [_ Hops].
      by apply Hops.
  - intros this h mutations options w service request w' Hrun.
    unfold buildMutationRequestAndService in Hrun.
    destruct (ServiceCache.loadService _ _ _ _ _ _) as [[loaded|err] w1]; [|done].
    injection Hrun as <- <- <-. split; [done|].
    intros mutation _ Hnone. unfold carries_mask.
    rewrite (mutation_operation_mask _ _ Hnone).
    split.
    + intros (v & [= <-] & Hv).
      destruct (operation mutation) as [[]|]; done.
    + intros ->. eexists. split; [done|done].
Qed.

End Facts.

(** C7 as the specification words it fails when an entity is listed twice:
    the second operation is built from an entity that carries the keys when
    the call is made, and has none on its envelope. *)
Lemma repeated_entity_gets_no_keys :
  buildOperations unit sample_toObject sample_getFieldMask create
    [VRef 0; VRef 0] None sample_heap
  = (Returns [ <[ "exempt_policy_violation_keys" := VArr [VStr "POLICY_X"] ]>
                 (envelope create (VRef 0));
               envelope create (VRef 0) ],
     <[ 0%nat := {[ "name" := VStr "ad" ]} ]> sample_heap)
  ∧ ¬ keys_moved_for_every_entity [VRef 0; VRef 0] sample_heap
        [ <[ "exempt_policy_violation_keys" := VArr [VStr "POLICY_X"] ]>
            (envelope create (VRef 0));
          envelope create (VRef 0) ]
        (<[ 0%nat := {[ "name" := VStr "ad" ]} ]> sample_heap).
Proof.
  split; [by vm_compute|].
  intros H.
  destruct (H 1%nat 0%nat ad [VStr "POLICY_X"]) as (op & o' & Hop & Hkeys & _);
    [reflexivity|reflexivity|reflexivity|discriminate|].
  injection Hop as <-. vm_compute in Hkeys. discriminate Hkeys.
Qed.

Lemma exemption_keys_move_to_envelope_witness :
  ∃ ops h',
    buildOperations unit sample_toObject sample_getFieldMask create
      [VRef 0; VRef 1] None sample_heap = (Returns ops, h')
    ∧ ∃ op o', ops !! 0%nat = Some op
               ∧ op !! "exempt_policy_violation_keys" = Some (VArr [VStr "POLICY_X"])
               ∧ op !! "create" = Some (VRef 0)
               ∧ h' !! 0%nat = Some o'
               ∧ o' !! "exempt_policy_violation_keys" = None.
Proof.
  destruct (exemption_keys_move_to_envelope unit sample_toObject sample_getFieldMask
              None [VRef 0; VRef 1] sample_heap)
    as [(ops & h' & Hrun & _ & Hfirst & _) _].
  exists ops, h'. split; [exact Hrun|].
  apply (Hfirst 0%nat 0%nat ad [VStr "POLICY_X"]);
    [reflexivity|apply not_elem_of_nil|reflexivity|reflexivity|discriminate].
Defined.

Lemma buildOperations_mutates_entities_witness :
  ∃ ops h',
    buildOperations unit sample_toObject sample_getFieldMask create
      [VRef 1; VRef 0] None sample_heap = (Returns ops, h')
    ∧ h' !! 0%nat = Some (delete "exempt_policy_violation_keys" ad)
    ∧ (buildOperations unit sample_toObject sample_getFieldMask update
         [VRef 1; VRef 0] (Some tt) sample_heap).2 = sample_heap.
Proof.
  destruct (buildOperations_mutates_entities unit sample_toObject sample_getFieldMask
              None [VRef 1; VRef 0] sample_heap)
    as [(ops & h' & Hrun & _ & Hstrip) _].
  exists ops, h'. split; [exact Hrun|]. split.
  - apply (Hstrip 0%nat ad [VStr "POLICY_X"]);
      [apply list_elem_of_lookup; by exists 1%nat|reflexivity|reflexivity|discriminate].
  - apply (proj2 (buildOperations_mutates_entities unit sample_toObject
                    sample_getFieldMask (Some tt) [VRef 1; VRef 0] sample_heap)).
    discriminate.
Defined.

(** C8 as the specification words it fails for a resource that has a
    property [update_mask] of its own: the operation built for its [create]
    carries that mask. *)
Lemma create_with_update_mask :
  (buildMutationRequestAndService unit sample_getFieldMask sample_toSnakeCase
     no_file no_json sample_exports sample_service sample_heap
     [create_masked] None ServiceCache.init).1
  = Returns (Some sample_stub,
             mkMutateGoogleAdsRequest "1234567890"
               [mkMutateOperation "campaign_operation"
                  (mutation_operation sample_getFieldMask sample_heap create_masked)]
               None)
  ∧ operation create_masked = Some create
  ∧ mutation_operation sample_getFieldMask sample_heap create_masked !! "update_mask"
    = Some (VMask ["status"])
  ∧ carries_mask (mutation_operation sample_getFieldMask sample_heap create_masked)
  ∧ ¬ (carries_mask (mutation_operation sample_getFieldMask sample_heap create_masked)
       ↔ operation create_masked = Some update).
Proof.
  assert (Hmask : carries_mask
                    (mutation_operation sample_getFieldMask sample_heap create_masked)).
  { exists (VMask ["status"]). split; [by vm_compute|discriminate]. }
  split; [by vm_compute|]. split; [done|]. split; [by vm_compute|].
  split; [exact Hmask|].
  intros [Hkind _]. specialize (Hkind Hmask). discriminate Hkind.
Qed.

Lemma update_mask_only_for_update_witness :
  (∀ op,
      op ∈ [ <[ "update_mask" := VMask ["name"] ]> (envelope update (VRef 1)) ] →
      carries_mask op)
  ∧ carries_mask (mutation_operation sample_getFieldMask sample_heap update_campaign).
Proof.
  destruct (update_mask_only_for_update unit sample_toObject sample_getFieldMask
              unit sample_toSnakeCase no_file no_json sample_exports)
    as [Hops Hmutations].
  split.
  - intros op Hin.
    assert (Hrun : buildOperations unit sample_toObject sample_getFieldMask update
                     [VRef 1] (Some tt) sample_heap
                   = (Returns [ <[ "update_mask" := VMask ["name"] ]>
                                  (envelope update (VRef 1)) ], sample_heap))
      by (by vm_compute).
    exact (proj2 (Hops _ _ _ _ _ _ Hrun op Hin) eq_refl).
  - destruct (Hmutations sample_service sample_heap [update_campaign] None
                ServiceCache.init (Some sample_stub)
                (mkMutateGoogleAdsRequest "1234567890"
                   [mutateOperation sample_getFieldMask sample_toSnakeCase
                      sample_heap update_campaign] None)
                (ServiceCache.loadService no_file no_json sample_exports
                   sample_service "GoogleAdsServiceClient" ServiceCache.init).2)
      as [_ Hmask]; [by vm_compute|].
    exact (proj2 (Hmask update_campaign (proj2 (list_elem_of_singleton _ _) eq_refl)
                    eq_refl) eq_refl).
Defined.

End RequestBuilderFacts.

(** ** Credential provider *)

Module CredentialsFacts.
Import JS Credentials CredentialsSamples.

Lemma truthy_string_some key : key ≠ "" → truthy_string (Some key) = true.
Proof.
  intros Hne. simpl. destruct (String.eqb key "") eqn:Heq; [|done].
  by apply String.eqb_eq in Heq.
Qed.

Section Facts.

Variable JSON_parse : string → Outcome json.
Variable Date_now : Z.
Variable jwt_sign : JwtPayload → option json → string → Outcome string.
Variable token_endpoint : HttpRequest → HttpReply.

(** C6, as the code has it: a key document that is not the empty string and
    fails to parse makes the construction throw the parser's error, with
    nothing done before: no request issued, nothing logged, no promise
    created. *)
Theorem malformed_key_throws_before_any_request opts key err w :
  service_account_key opts = Some key →
  key ≠ "" →
  JSON_parse key = Throws err →
  constructor JSON_parse Date_now jwt_sign token_endpoint opts w = (Throws err, w).
Proof.
  intros Hkey Hne Hparse.
  unfold constructor, initializeServiceAccountFlow. simpl.
  rewrite Hkey, (truthy_string_some _ Hne). simpl.
  by rewrite Hparse.
Qed.


End Facts.

(** C6 as the specification words it fails for the empty key document: it
    does not parse, and the construction returns a client. *)
Lemma empty_key_is_not_rejected :
  sample_parse "" = Throws (mkError "SyntaxError" "Unexpected token in JSON")
  ∧ constructor sample_parse 1700000000000 sample_sign endpoint_granting
      (options_with (Some "")) quiet
    = (Returns (mkClient (options_with (Some "")) NoToken), quiet)
  ∧ ¬ malformed_key_throws sample_parse
        (constructor sample_parse 1700000000000 sample_sign endpoint_granting).
Proof.
  split; [done|]. split; [done|].
  intros H.
  destruct (H (options_with (Some "")) "" _ eq_refl eq_refl) as (err' & w' & Hrun & _).
  discriminate Hrun.
Qed.

Lemma malformed_key_throws_before_any_request_witness :
  constructor sample_parse 1700000000000 sample_sign endpoint_granting
    (options_with (Some "{not json")) quiet
  = (Throws (mkError "SyntaxError" "Unexpected token in JSON"), quiet).
Proof.
  apply (malformed_key_throws_before_any_request sample_parse 1700000000000
           sample_sign endpoint_granting (options_with (Some "{not json"))
           "{not json"); [reflexivity|discriminate|reflexivity].
Defined.


End CredentialsFacts.

(** ** Service cache *)

Module ServiceCacheFacts.
Import JS ServiceCache ServiceCacheSamples.

Lemma has_true key (cache : list Entry) :
  has key cache = true ↔ key ∈ entry_key <$> cache.
Proof.
  unfold has. rewrite existsb_exists, list_elem_of_fmap. split.
  - intros (e & Hin & Heq). exists e. apply String.eqb_eq in Heq.
    split; [done|]. by apply list_elem_of_In.
  - intros (e & -> & Hin). exists e. split; [by apply list_elem_of_In|].
    apply String.eqb_refl.
Qed.

Lemma has_false key (cache : list Entry) :
  has key cache = false ↔ key ∉ entry_key <$> cache.
Proof.
  rewrite <- has_true. by destruct (has key cache).
Qed.

Lemma get_held key a expires (cache : list Entry) :
  NoDup (entry_key <$> cache) →
  mkEntry key a expires ∈ cache →
  get key cache = Some a.
Proof.
  unfold get. induction cache as [|e cache IH]; intros Hnodup Hin.
  - by apply elem_of_nil in Hin.
  - simpl in Hnodup. apply NoDup_cons in Hnodup as [Hfresh Hnodup].
    simpl. unfold has_key at 1.
    apply elem_of_cons in Hin as [<-|Hin].
    + simpl. by rewrite String.eqb_refl.
    + destruct (String.eqb (entry_key e) key) eqn:Heq.
      * apply String.eqb_eq in Heq. destruct Hfresh.
        apply list_elem_of_fmap. exists (mkEntry key a expires). by rewrite Heq.
      * by apply IH.
Qed.

Lemma get_absent key (cache : list Entry) :
  has key cache = false → get key cache = None.
Proof.
  unfold has, get. induction cache as [|e cache IH]; [done|].
  simpl. destruct (has_key key e); [done|]. simpl. apply IH.
Qed.

Lemma length_within {A} `{Countable A} {B} (l : list A) (m : gmap A B) :
  NoDup l → (∀ x, x ∈ l → is_Some (m !! x)) → (length l ≤ size m)%nat.
Proof.
  intros Hnodup Hin.
  rewrite <- size_dom. unfold size, set_size. simpl.
  apply submseteq_length, NoDup_submseteq; [done|].
  intros x Hx. apply elem_of_elements, elem_of_dom. by apply Hin.
Qed.

Lemma filter_absent key (cache : list Entry) :
  key ∉ entry_key <$> cache →
  filter (λ e, entry_key e ≠ key) cache = cache.
Proof.
  induction cache as [|e cache IH]; [done|].
  intros Hnot. simpl in Hnot. apply not_elem_of_cons in Hnot as [Hne Hnot].
  rewrite filter_cons_True by done. by rewrite IH.
Qed.

Lemma fmap_NoDup_inj {A B} (f : A → B) (l : list A) x y :
  NoDup (f <$> l) → x ∈ l → y ∈ l → f x = f y → x = y.
Proof.
  induction l as [|a l IH]; intros Hnodup Hx Hy Heq.
  - by apply elem_of_nil in Hx.
  - simpl in Hnodup. apply NoDup_cons in Hnodup as [Hfresh Hnodup].
    apply elem_of_cons in Hx as [->|Hx]; apply elem_of_cons in Hy as [->|Hy].
    + done.
    + destruct Hfresh. rewrite Heq. apply list_elem_of_fmap. eauto.
    + destruct Hfresh. rewrite <- Heq. apply list_elem_of_fmap. eauto.
    + by apply IH.
Qed.

Lemma consistent_init google_ads_node : consistent google_ads_node init.
Proof.
  split; simpl; try apply NoDup_nil_2; intros x Hx; by apply elem_of_nil in Hx.
Qed.

(** The expiry timer keeps a consistent state consistent. *)
Lemma consistent_purge google_ads_node w t :
  consistent google_ads_node w →
  consistent google_ads_node
    (mkWorld t (purgeStale t (serviceCache w)).1
       (dispose (purgeStale t (serviceCache w)).2 (closed w)) (constructed w)).
Proof.
  intros Hw. unfold purgeStale, dispose. simpl.
  assert (Hlive : filter (λ e, (t < entry_expires e)%N) (serviceCache w) `sublist_of` serviceCache w)
    by apply sublist_filter.
  assert (Hstale : filter (λ e, (entry_expires e ≤ t)%N) (serviceCache w) `sublist_of` serviceCache w)
    by apply sublist_filter.
  split; simpl.
  - eapply sublist_NoDup; [apply (keys_distinct _ _ Hw)|]. by apply fmap_sublist.
  - intros e [_ He]%list_elem_of_filter. by apply (keys_exported _ _ Hw).
  - eapply sublist_NoDup; [apply (stubs_distinct _ _ Hw)|]. by apply fmap_sublist.
  - intros e [_ He]%list_elem_of_filter. by apply (stubs_constructed _ _ Hw).
  - intros e [Hexp He]%list_elem_of_filter Hin.
    apply elem_of_app in Hin as [Hin|Hin]; [by apply (stubs_open _ _ Hw) in Hin|].
    apply list_elem_of_fmap in Hin as (a & Hid & Ha).
    apply list_elem_of_fmap in Ha as (e' & -> & [Hexp' He']%list_elem_of_filter).
    assert (e = e') as ->
      by (eapply (fmap_NoDup_inj (stub_id ∘ entry_value));
          [apply (stubs_distinct _ _ Hw)|done|done|done]).
    lia.
  - intros id Hin.
    apply elem_of_app in Hin as [Hin|Hin]; [by apply (closed_constructed _ _ Hw)|].
    apply list_elem_of_fmap in Hin as (a & -> & Ha).
    apply list_elem_of_fmap in Ha as (e' & -> & [_ He']%list_elem_of_filter).
    by apply (stubs_constructed _ _ Hw).
  - apply NoDup_app. split; [apply (closed_once _ _ Hw)|]. split.
    + intros id Hid Hin.
      apply list_elem_of_fmap in Hin as (a & -> & Ha).
      apply list_elem_of_fmap in Ha as (e' & -> & [_ He']%list_elem_of_filter).
      by apply (stubs_open _ _ Hw) in He'.
    + rewrite <- list_fmap_compose.
      eapply sublist_NoDup; [apply (stubs_distinct _ _ Hw)|]. by apply fmap_sublist.
Qed.

Section Facts.

Variable readFileSync : string → Outcome string.
Variable JSON_parse : string → Outcome json.
Variable google_ads_node : gmap string Export.

(** The package exports no more names than the cache can hold. *)
Hypothesis exports_fit : (size google_ads_node ≤ max)%nat.

(** Storing a stub under a name that is exported and not yet in a
    consistent cache appends the entry: nothing is replaced, nothing
    evicted. *)
Lemma set_fresh key v t (cache : list Entry) :
  NoDup (entry_key <$> cache) →
  (∀ e, e ∈ cache → is_Some (google_ads_node !! entry_key e)) →
  is_Some (google_ads_node !! key) →
  has key cache = false →
  set key v t cache = ((cache ++ [mkEntry key v (t + ttl)])%list, []).
Proof.
  intros Hnodup Hexp Hkey Hhas. unfold set.
  rewrite (get_absent _ _ Hhas).
  apply has_false in Hhas. rewrite (filter_absent _ _ Hhas).
  unfold purgeToCapacity.
  assert (Hlen : (length (cache ++ [mkEntry key v (t + ttl)])%list ≤ max)%nat).
  { etrans; [|exact exports_fit].
    rewrite <- (length_fmap entry_key).
    apply length_within.
    - rewrite fmap_app. simpl. apply NoDup_app. split; [done|].
      split; [|apply NoDup_singleton].
      intros k Hk Hk'. apply list_elem_of_singleton in Hk' as ->. done.
    - intros k Hk. rewrite fmap_app in Hk. simpl in Hk.
      apply elem_of_app in Hk as [Hk|Hk].
      + apply list_elem_of_fmap in Hk as (e & -> & He). by apply Hexp.
      + by apply list_elem_of_singleton in Hk as ->. }
  replace (length (cache ++ [mkEntry key v (t + ttl)])%list - max)%nat
    with 0%nat by lia.
  done.
Qed.

(** The two ways a call of [loadService] goes in a consistent state: it
    changes nothing (a hit, or a throw), or it constructs the next stub and
    appends its entry. *)
Lemma loadService_cases this service w :
  consistent google_ads_node w →
  let result := loadService readFileSync JSON_parse google_ads_node this service w in
  (result.2 = w
   ∧ (has service (serviceCache w) = true → result.1 = Returns (get service (serviceCache w)))
   ∧ (has service (serviceCache w) = false → ∃ err, result.1 = Throws err))
  ∨ (∃ creds,
       has service (serviceCache w) = false
       ∧ google_ads_node !! service = Some ClientClass
       ∧ getCredentials readFileSync JSON_parse this = Returns creds
       ∧ result
         = (Returns (Some (mkStub (constructed w) service creds)),
            mkWorld (now w)
                    (serviceCache w ++ [mkEntry service (mkStub (constructed w) service creds)
                                         (now w + ttl)])
                    (closed w) (S (constructed w)))).
Proof.
  intros Hw. unfold loadService. cbv zeta.
  destruct (has service (serviceCache w)) eqn:Hhas.
  { left. simpl. split; [done|]. split; [done|]. done. }
  destruct (google_ads_node !! service) as [export|] eqn:Hexport.
  2:{ left. simpl. split; [done|]. split; [done|]. eauto. }
  destruct (getCredentials readFileSync JSON_parse this) as [creds|err] eqn:Hcreds.
  2:{ left. simpl. split; [done|]. split; [done|]. eauto. }
  destruct export.
  2:{ left. simpl. split; [done|]. split; [done|]. eauto. }
  right. exists creds. split; [done|]. split; [done|]. split; [done|].
  rewrite (set_fresh service _ (now w) (serviceCache w)
             (keys_distinct _ _ Hw) (keys_exported _ _ Hw)); [|by rewrite Hexport|done].
  unfold dispose. simpl. by rewrite app_nil_r.
Qed.

Lemma consistent_load this service w :
  consistent google_ads_node w →
  consistent google_ads_node
    (loadService readFileSync JSON_parse google_ads_node this service w).2.
Proof.
  intros Hw.
  destruct (loadService_cases this service w Hw)
    as [(-> & _)|(creds & Hhas & Hexport & _ & ->)]; [done|].
  apply has_false in Hhas. split; simpl.
  - rewrite fmap_app. apply NoDup_app. split; [apply (keys_distinct _ _ Hw)|].
    split; [|apply NoDup_singleton].
    intros k Hk Hk'. by apply list_elem_of_singleton in Hk' as ->.
  - intros e [He|He]%elem_of_app.
    + by apply (keys_exported _ _ Hw).
    + apply list_elem_of_singleton in He as ->. simpl. by rewrite Hexport.
  - rewrite fmap_app. apply NoDup_app. split; [apply (stubs_distinct _ _ Hw)|].
    split; [|apply NoDup_singleton].
    intros id Hid Hid'. apply list_elem_of_singleton in Hid'. simpl in Hid'. subst id.
    apply list_elem_of_fmap in Hid as (e & Hid & He). simpl in Hid.
    apply (stubs_constructed _ _ Hw) in He. lia.
  - intros e [He|He]%elem_of_app.
    + apply (stubs_constructed _ _ Hw) in He. lia.
    + apply list_elem_of_singleton in He as ->. simpl. lia.
  - intros e [He|He]%elem_of_app.
    + by apply (stubs_open _ _ Hw).
    + apply list_elem_of_singleton in He as ->. simpl.
      intros Hin. apply (closed_constructed _ _ Hw) in Hin. lia.
  - intros id Hin. apply (closed_constructed _ _ Hw) in Hin. lia.
  - apply (closed_once _ _ Hw).
Qed.

Lemma consistent_elapse dt w :
  consistent google_ads_node w → consistent google_ads_node (elapse dt w).
Proof. intros Hw. by apply (consistent_purge _ w (now w + dt)). Qed.

Lemma consistent_step w a :
  consistent google_ads_node w →
  consistent google_ads_node (step readFileSync JSON_parse google_ads_node w a).
Proof.
  intros Hw. destruct a; simpl; [by apply consistent_load|by apply consistent_elapse].
Qed.

Lemma consistent_run trace w :
  consistent google_ads_node w →
  consistent google_ads_node (run readFileSync JSON_parse google_ads_node trace w).
Proof.
  revert w. induction trace as [|a trace IH]; intros w Hw; [done|].
  simpl. by apply IH, consistent_step.
Qed.

Lemma loadService_hit this service w :
  has service (serviceCache w) = true →
  loadService readFileSync JSON_parse google_ads_node this service w
  = (Returns (get service (serviceCache w)), w).
Proof. intros Hhas. unfold loadService. cbv zeta. by rewrite Hhas. Qed.

Lemma loadService_miss this service w creds :
  consistent google_ads_node w →
  has service (serviceCache w) = false →
  google_ads_node !! service = Some ClientClass →
  getCredentials readFileSync JSON_parse this = Returns creds →
  loadService readFileSync JSON_parse google_ads_node this service w
  = (Returns (Some (mkStub (constructed w) service creds)),
     mkWorld (now w)
             (serviceCache w ++ [mkEntry service (mkStub (constructed w) service creds)
                                  (now w + ttl)])
             (closed w) (S (constructed w))).
Proof.
  intros Hw Hhas Hexport Hcreds.
  destruct (loadService_cases this service w Hw)
    as [(_ & _ & Hthrow)|(creds' & _ & _ & Hcreds' & ->)].
  - destruct (Hthrow Hhas) as [err Herr].
    unfold loadService in Herr. cbv zeta in Herr.
    rewrite Hhas, Hexport, Hcreds in Herr.
    by destruct (set _ _ _ _).
  - rewrite Hcreds in Hcreds'. by injection Hcreds' as <-.
Qed.

Lemma now_step w a :
  now (step readFileSync JSON_parse google_ads_node w a) = (now w + duration a)%N.
Proof.
  destruct a as [this service|dt]; simpl; [|done].
  unfold loadService. cbv zeta.
  repeat match goal with
         | |- context [match ?x with _ => _ end] => destruct x; simpl
         end; lia.
Qed.

Lemma now_run trace w :
  now (run readFileSync JSON_parse google_ads_node trace w) = (now w + elapsed trace)%N.
Proof.
  revert w. induction trace as [|a trace IH]; intros w; simpl; [lia|].
  rewrite IH, now_step. lia.
Qed.

(** A live entry stays in the cache as long as its time has not come. *)
Lemma held_step w a e :
  consistent google_ads_node w →
  e ∈ serviceCache w →
  (now w + duration a < entry_expires e)%N →
  e ∈ serviceCache (step readFileSync JSON_parse google_ads_node w a).
Proof.
  intros Hw He Hlive. destruct a as [this service|dt]; simpl.
  - destruct (loadService_cases this service w Hw)
      as [(-> & _)|(creds & _ & _ & _ & ->)]; [done|].
    simpl. apply elem_of_app. by left.
  - apply list_elem_of_filter. by split.
Qed.

Lemma held_run trace w e :
  consistent google_ads_node w →
  e ∈ serviceCache w →
  (now w + elapsed trace < entry_expires e)%N →
  e ∈ serviceCache (run readFileSync JSON_parse google_ads_node trace w).
Proof.
  revert w. induction trace as [|a trace IH]; intros w Hw He Hlive; [done|].
  simpl in *. apply IH.
  - by apply consistent_step.
  - apply held_step; [done|done|lia].
  - rewrite now_step. lia.
Qed.

(** A [close()] call, once received, stays received. *)
Lemma closed_step w a id :
  id ∈ closed w → id ∈ closed (step readFileSync JSON_parse google_ads_node w a).
Proof.
  intros Hid. destruct a as [this service|dt]; simpl.
  - unfold loadService. cbv zeta.
    repeat match goal with
           | |- context [match ?x with _ => _ end] => destruct x; simpl
           end; try done;
      unfold dispose; apply elem_of_app; by left.
  - unfold dispose. apply elem_of_app. by left.
Qed.

Lemma closed_run trace w id :
  id ∈ closed w → id ∈ closed (run readFileSync JSON_parse google_ads_node trace w).
Proof.
  revert w. induction trace as [|a trace IH]; intros w Hid; [done|].
  simpl. by apply IH, closed_step.
Qed.

(** A name stays out of the cache as long as nobody loads it. *)
Lemma absent_step w a service :
  consistent google_ads_node w →
  has service (serviceCache w) = false →
  loads service a = false →
  has service (serviceCache (step readFileSync JSON_parse google_ads_node w a)) = false.
Proof.
  intros Hw Hhas Hload. destruct a as [this service'|dt]; simpl in *.
  - destruct (loadService_cases this service' w Hw)
      as [(-> & _)|(creds & _ & _ & _ & ->)]; [done|].
    simpl. apply has_false. rewrite fmap_app. simpl.
    apply has_false in Hhas.
    intros [Hin|Hin]%elem_of_app; [done|].
    apply list_elem_of_singleton in Hin as ->.
    by rewrite String.eqb_refl in Hload.
  - apply has_false. apply has_false in Hhas.
    intros (e & -> & [_ He]%list_elem_of_filter)%list_elem_of_fmap.
    apply Hhas, list_elem_of_fmap. eauto.
Qed.

Lemma absent_run trace w service :
  consistent google_ads_node w →
  has service (serviceCache w) = false →
  forallb (λ a, negb (loads service a)) trace = true →
  has service (serviceCache (run readFileSync JSON_parse google_ads_node trace w)) = false.
Proof.
  revert w. induction trace as [|a trace IH]; intros w Hw Hhas Hloads; [done|].
  simpl in *. apply andb_true_iff in Hloads as [Hload Hloads].
  apply IH; [by apply consistent_step| |done].
  apply absent_step; [done|done|]. by destruct (loads service a).
Qed.

(** When its time has come, the entry is removed and its stub closed. *)
Lemma purged dt w service a expires :
  consistent google_ads_node w →
  mkEntry service a expires ∈ serviceCache w →
  (expires ≤ now w + dt)%N →
  stub_id a ∈ closed (elapse dt w) ∧ has service (serviceCache (elapse dt w)) = false.
Proof.
  intros Hw He Hstale. unfold elapse, purgeStale, dispose. simpl. split.
  - apply elem_of_app. right.
    apply list_elem_of_fmap. exists a. split; [done|].
    apply list_elem_of_fmap. exists (mkEntry service a expires). split; [done|].
    apply list_elem_of_filter. by split.
  - apply has_false.
    intros (e & Hkey & [Hlive He']%list_elem_of_filter)%list_elem_of_fmap.
    assert (e = mkEntry service a expires) as ->
      by (eapply (fmap_NoDup_inj entry_key);
          [apply (keys_distinct _ _ Hw)|done|done|done]).
    simpl in Hlive. lia.
Qed.

Lemma closed_exactly_once w a :
  consistent google_ads_node w → stub_id a ∈ closed w → close_calls a w = 1%nat.
Proof.
  intros Hw Hin. unfold close_calls.
  apply NoDup_count_occ'; [|by apply list_elem_of_In].
  apply NoDup_ListNoDup, (closed_once _ _ Hw).
Qed.

Lemma never_closed w a :
  stub_id a ∉ closed w → close_calls a w = 0%nat.
Proof.
  intros Hin. unfold close_calls. apply count_occ_not_In.
  by rewrite <- list_elem_of_In.
Qed.

(** C4.  Take any state the cache can reach and a call of [loadService]
    that constructs the stub [a] for a service.  As long as less than the
    TTL has passed since, whatever else is loaded in between, every call for
    that service, by any [Service] instance, returns [a] itself and
    constructs nothing, and [a] has received no [close()] call.  Once the
    TTL has passed, [a] has received exactly one [close()] call; the next
    call for the service constructs and returns a new stub, and [a] never
    receives a second [close()] call. *)
Theorem stub_shared_within_ttl_then_replaced history this service a w1 :
  let w := run readFileSync JSON_parse google_ads_node history init in
  has service (serviceCache w) = false →
  loadService readFileSync JSON_parse google_ads_node this service w
  = (Returns (Some a), w1) →
  (∀ trace this',
      (elapsed trace < ttl)%N →
      let w' := run readFileSync JSON_parse google_ads_node trace w1 in
      loadService readFileSync JSON_parse google_ads_node this' service w'
      = (Returns (Some a), w')
      ∧ close_calls a w' = 0%nat)
  ∧ (∀ before dt after this' creds,
        (elapsed before < ttl)%N →
        (ttl ≤ elapsed before + dt)%N →
        forallb (λ act, negb (loads service act)) after = true →
        getCredentials readFileSync JSON_parse this' = Returns creds →
        let w2 := run readFileSync JSON_parse google_ads_node
                    (before ++ Elapse dt :: after) w1 in
        ∃ b w3,
          loadService readFileSync JSON_parse google_ads_node this' service w2
          = (Returns (Some b), w3)
          ∧ stub_id b = constructed w2
          ∧ stub_id b ≠ stub_id a
          ∧ close_calls a w2 = 1%nat
          ∧ ∀ later,
              close_calls a (run readFileSync JSON_parse google_ads_node later w3)
              = 1%nat).
Proof.
  intros w Hhas Hload.
  assert (Hw : consistent google_ads_node w)
    by apply consistent_run, consistent_init.
  assert (Hw1 : consistent google_ads_node w1).
  { pose proof (consistent_load this service w Hw) as H. by rewrite Hload in H. }
  destruct (loadService_cases this service w Hw)
    as [(_ & _ & Hthrow)|(creds0 & _ & Hexport & _ & Hcons)].
  { destruct (Hthrow Hhas) as [err Herr]. by rewrite Hload in Herr. }
  rewrite Hload in Hcons. injection Hcons as Ha Hw1eq.
  assert (Hnow : now w1 = now w) by (by rewrite Hw1eq).
  assert (Hheld : mkEntry service a (now w + ttl) ∈ serviceCache w1).
  { rewrite Hw1eq, Ha. simpl. apply elem_of_app. right. by apply list_elem_of_singleton. }
  split.
  - intros trace this' Htime w'.
    assert (Hw' : consistent google_ads_node w') by by apply consistent_run.
    assert (Hin : mkEntry service a (now w + ttl) ∈ serviceCache w').
    { apply held_run; [done|done|]. simpl. lia. }
    split.
    + rewrite loadService_hit.
      * by rewrite (get_held _ _ _ _ (keys_distinct _ _ Hw') Hin).
      * apply has_true, list_elem_of_fmap. by exists (mkEntry service a (now w + ttl)).
    + apply never_closed. apply (stubs_open _ _ Hw' _ Hin).
  - intros before dt after this' creds Hbefore Hdt Hafter Hcreds w2.
    set (wb := run readFileSync JSON_parse google_ads_node before w1).
    assert (Hwb : consistent google_ads_node wb) by by apply consistent_run.
    assert (Hin : mkEntry service a (now w + ttl) ∈ serviceCache wb).
    { apply held_run; [done|done|]. simpl. lia. }
    destruct (purged dt wb service a (now w + ttl) Hwb Hin) as [Hclosed Habsent].
    { unfold wb. rewrite now_run. lia. }
    assert (Hw2eq : w2 = run readFileSync JSON_parse google_ads_node after (elapse dt wb)).
    { unfold w2, wb, run. by rewrite fold_left_app. }
    assert (Hwe : consistent google_ads_node (elapse dt wb)) by by apply consistent_elapse.
    assert (Hw2 : consistent google_ads_node w2) by (rewrite Hw2eq; by apply consistent_run).
    assert (Hclosed2 : stub_id a ∈ closed w2) by (rewrite Hw2eq; by apply closed_run).
    assert (Habsent2 : has service (serviceCache w2) = false)
      by (rewrite Hw2eq; by apply absent_run).
    eexists _, _. split; [by apply loadService_miss|].
    split; [done|]. split.
    + simpl. apply (closed_constructed _ _ Hw2) in Hclosed2. lia.
    + split; [by apply closed_exactly_once|].
      intros later. apply closed_exactly_once.
      * apply consistent_run.
        pose proof (consistent_load this' service w2 Hw2) as H.
        by rewrite (loadService_miss this' service w2 creds) in H.
      * by apply closed_run.
Qed.

End Facts.

Lemma stub_shared_within_ttl_then_replaced_witness :
  let w1 := (loadService read_nothing parse_nothing two_services customer
               "GoogleAdsServiceClient" init).2 in
  (let w' := run read_nothing parse_nothing two_services
               [Elapse 1000; Load customer "CampaignServiceClient"; Elapse 598999] w1 in
   loadService read_nothing parse_nothing two_services customer
     "GoogleAdsServiceClient" w'
   = (Returns (Some first_stub), w')
   ∧ close_calls first_stub w' = 0%nat)
  ∧ (let w2 := run read_nothing parse_nothing two_services
                 [Elapse 300000; Elapse 300000;
                  Load customer "CampaignServiceClient"] w1 in
     ∃ b w3,
       loadService read_nothing parse_nothing two_services customer
         "GoogleAdsServiceClient" w2 = (Returns (Some b), w3)
       ∧ stub_id b ≠ stub_id first_stub
       ∧ close_calls first_stub w2 = 1%nat).
Proof.
  intros w1.
  assert (Hfit : (size two_services ≤ max)%nat) by (vm_compute; lia).
  destruct (stub_shared_within_ttl_then_replaced read_nothing parse_nothing
              two_services Hfit [] customer "GoogleAdsServiceClient" first_stub w1
              eq_refl eq_refl) as [Hwithin Hafter].
  split.
  - apply Hwithin. by vm_compute.
  - destruct (Hafter [Elapse 300000] 300000%N [Load customer "CampaignServiceClient"]
                customer
                (mkChannelCredentials (UserRefreshClient "id" "secret" (Some "refresh"))))
      as (b & w3 & Hload & _ & Hne & Hclose & _);
      [by vm_compute|by vm_compute|reflexivity|reflexivity|].
    exists b, w3. split; [exact Hload|]. split; [exact Hne|exact Hclose].
Defined.

End ServiceCacheFacts.

(** * Further properties of the code *)

(** ** Error translator *)

Module ErrorTranslatorMore.
Import JS ErrorTranslator ErrorTranslatorSamples.

Lemma append_cons c (s t : string) : String c s +:+ t = String c (s +:+ t).
Proof. done. Qed.

Lemma append_nil_l (s : string) : "" +:+ s = s.
Proof. done. Qed.

Lemma length_append (a b : string) :
  String.length (a +:+ b) = (String.length a + String.length b)%nat.
Proof.
  induction a as [|x a IH]; [done|].
  rewrite append_cons. simpl. by rewrite IH.
Qed.

Lemma append_cancel_r (a b s : string) : a +:+ s = b +:+ s → a = b.
Proof.
  revert b. induction a as [|x a IH]; intros [|y b] H.
  - done.
  - apply (f_equal String.length) in H.
    rewrite append_nil_l, append_cons in H. simpl in H.
    rewrite length_append in H. lia.
  - apply (f_equal String.length) in H.
    rewrite append_nil_l, append_cons in H. simpl in H.
    rewrite length_append in H. lia.
  - rewrite !append_cons in H. injection H as -> H. by rewrite (IH b H).
Qed.

Lemma append_cancel_l (a s t : string) : a +:+ s = a +:+ t → s = t.
Proof.
  induction a as [|x a IH]; [done|].
  rewrite !append_cons. intros [= H]. by apply IH.
Qed.

Lemma prefix_spec (p s : string) :
  String.prefix p s = true ↔ ∃ rest, s = p +:+ rest.
Proof.
  revert s. induction p as [|c p IH]; intros s.
  - simpl. split; [intros _; by exists s|by destruct s].
  - destruct s as [|d s]; simpl.
    { split; [done|]. intros [rest Hrest]. by rewrite append_cons in Hrest. }
    destruct (Ascii.ascii_dec c d) as [->|Hne].
    + rewrite IH. split; intros [rest Hrest]; exists rest.
      * by rewrite append_cons, Hrest.
      * rewrite append_cons in Hrest. by injection Hrest.
    + split; [done|]. intros [rest Hrest].
      rewrite append_cons in Hrest. injection Hrest as Hd _. congruence.
Qed.

Lemma includes_spec (s sub : string) :
  includes s sub = true ↔ ∃ before after, s = before +:+ sub +:+ after.
Proof.
  induction s as [|c s IH].
  - change (includes "" sub) with (String.prefix sub "" || false).
    rewrite orb_false_r, prefix_spec. split.
    + intros [rest Hrest]. by exists "", rest.
    + intros (before & after & H). destruct before as [|d before].
      * by exists after.
      * by rewrite append_cons in H.
  - change (includes (String c s) sub)
      with (String.prefix sub (String c s) || includes s sub).
    rewrite orb_true_iff, prefix_spec, IH. split.
    + intros [[rest Hrest]|(before & after & Hs)].
      * by exists "", rest.
      * exists (String c before), after. by rewrite append_cons, Hs.
    + intros (before & after & H). destruct before as [|d before].
      * left. by exists after.
      * right. rewrite append_cons in H. injection H as -> ->.
        by exists before, after.
Qed.

Lemma FAILURE_KEY_inj v1 v2 : FAILURE_KEY v1 = FAILURE_KEY v2 → v1 = v2.
Proof.
  unfold FAILURE_KEY. intros H.
  apply append_cancel_l in H. by apply append_cancel_r in H.
Qed.

Section More.

Variable googleAdsVersion : string.
Variable decode : list Byte.byte → Outcome GoogleAdsFailure.

(** X1: the three outcomes of [getGoogleAdsError].  The original error
    comes back only when the metadata holds nothing under [FAILURE_KEY];
    a failure is the decoding of the first value stored under the key, the
    other values being ignored; and the call throws only when the decoder
    throws on that first value or when the list of values is empty. *)
Theorem getGoogleAdsError_outcomes (e : TransportError) :
  match getGoogleAdsError googleAdsVersion decode e with
  | Returns (inl e') =>
      e' = e
      ∧ ∀ md, metadata e = Some md →
              internalRepr md !! FAILURE_KEY googleAdsVersion = None
  | Returns (inr failure) =>
      ∃ md buffer others,
        metadata e = Some md
        ∧ internalRepr md !! FAILURE_KEY googleAdsVersion = Some (buffer :: others)
        ∧ decode buffer = Returns failure
  | Throws err =>
      ∃ md values,
        metadata e = Some md
        ∧ internalRepr md !! FAILURE_KEY googleAdsVersion = Some values
        ∧ match values with
          | [] => err = PlainError "illegal buffer"
          | buffer :: _ => decode buffer = Throws err
          end
  end.
Proof.
  unfold getGoogleAdsError, failure_entry, decodeGoogleAdsFailureBuffer.
  destruct (metadata e) as [md|] eqn:Hmd; simpl.
  - destruct (internalRepr md !! FAILURE_KEY googleAdsVersion)
      as [[|buffer others]|] eqn:Hentry.
    + exists md, []. by rewrite Hentry.
    + destruct (decode buffer) as [failure|err] eqn:Hdec; simpl.
      * exists md, buffer, others. by rewrite Hentry.
      * exists md, (buffer :: others). by rewrite Hentry.
    + split; [done|]. intros md' [= <-]. done.
  - split; [done|]. intros md' Hmd'. done.
Qed.

(** X2: the key carries the API version, so a failure sent under the key of
    another version is not decoded: the error is passed through as it is. *)
Theorem other_version_failure_passes_through other err values :
  other ≠ googleAdsVersion →
  let e := mkTransportError err
             (Some (mkMetadata {[ FAILURE_KEY other := values ]})) in
  getGoogleAdsError googleAdsVersion decode e = Returns (inl e).
Proof.
  intros Hne e. unfold getGoogleAdsError, failure_entry. simpl.
  rewrite lookup_singleton_ne; [done|].
  intros Heq. by apply FAILURE_KEY_inj in Heq.
Qed.

Lemma find_first_match (skipped : list Detail) d later :
  Forall (λ x, is_failure_detail x = false) skipped →
  is_failure_detail d = true →
  List.find is_failure_detail (skipped ++ d :: later)%list = Some d.
Proof.
  intros Hskip Hd. induction Hskip as [|x skipped Hx _ IH]; simpl.
  - by rewrite Hd.
  - by rewrite Hx.
Qed.

(** X3: only the first matching detail counts.  The details before it that
    do not match, every detail after it (matching or not, decodable or
    not), and the other fields of the response make no difference to the
    result, a throw of the decoder included. *)
Theorem only_first_matching_detail_counts
    (response : gmap string Field) (skipped : list Detail) d later :
  Forall (λ x, is_failure_detail x = false) skipped →
  is_failure_detail d = true →
  decodePartialFailureError decode
    (<[ "partial_failure_error" := FPartialFailure (Some (skipped ++ d :: later)%list) ]>
       response)
  = decodePartialFailureError decode
      {[ "partial_failure_error" := FPartialFailure (Some [d]) ]}.
Proof.
  intros Hskip Hd.
  unfold decodePartialFailureError, failure_buffer, details_of.
  rewrite lookup_insert_eq, lookup_singleton_eq. simpl.
  rewrite (find_first_match _ _ _ Hskip Hd). by rewrite Hd.
Qed.

(** X4: a detail matches when its type URL contains
    [errors.GoogleAdsFailure] anywhere, whatever stands before it (host,
    package, API version) and after it. *)
Theorem failure_detail_by_substring (d : Detail) :
  is_failure_detail d = true
  ↔ ∃ before after, type_url d = before +:+ "errors.GoogleAdsFailure" +:+ after.
Proof. unfold is_failure_detail. apply includes_spec. Qed.

(** X5: decoding is not idempotent.  The object returned has no
    [partial_failure_error] any more, so passing it through
    [decodePartialFailureError] again yields an empty
    [mutate_operation_responses], whatever the first pass had found. *)
Theorem decoding_twice_loses_failures (response out : gmap string Field) :
  decodePartialFailureError decode response = Returns out →
  decodePartialFailureError decode out
  = Returns {[ "mutate_operation_responses" := FFailures [] ]}.
Proof.
  intros Hout.
  assert (Hshape : ∃ fs, out = {[ "mutate_operation_responses" := FFailures fs ]}).
  { unfold decodePartialFailureError in Hout.
    destruct (failure_buffer response) as [buffer|]; simpl in Hout.
    - destruct (decodeGoogleAdsFailureBuffer decode buffer) as [f|err]; simpl in Hout;
        [|done].
      destruct (0 <? length (errors f))%nat; injection Hout as <-; eauto.
    - injection Hout as <-. eauto. }
  destruct Hshape as [fs ->].
  unfold decodePartialFailureError, failure_buffer, details_of.
  by rewrite lookup_singleton_ne.
Qed.

End More.

Lemma other_version_failure_passes_through_witness :
  getGoogleAdsError "v15" sample_decode
    (mkTransportError (PlainError "3 INVALID_ARGUMENT")
       (Some (mkMetadata {[ FAILURE_KEY "v14" := [[Byte.x0a]] ]})))
  = Returns (inl (mkTransportError (PlainError "3 INVALID_ARGUMENT")
       (Some (mkMetadata {[ FAILURE_KEY "v14" := [[Byte.x0a]] ]})))).
Proof.
  apply (other_version_failure_passes_through "v15" sample_decode "v14").
  discriminate.
Defined.

Lemma only_first_matching_detail_counts_witness :
  decodePartialFailureError sample_decode
    (<[ "partial_failure_error" :=
          FPartialFailure (Some ([mkDetail other_url [Byte.x00]]
                                   ++ mkDetail failure_url [Byte.x0a]
                                   :: [mkDetail failure_url []])%list) ]> response_plain)
  = decodePartialFailureError sample_decode
      {[ "partial_failure_error" :=
           FPartialFailure (Some [mkDetail failure_url [Byte.x0a]]) ]}.
Proof.
  apply (only_first_matching_detail_counts sample_decode response_plain
           [mkDetail other_url [Byte.x00]] (mkDetail failure_url [Byte.x0a])
           [mkDetail failure_url []]).
  - repeat constructor.
  - reflexivity.
Defined.

Lemma decoding_twice_loses_failures_witness :
  decodePartialFailureError sample_decode
    {[ "mutate_operation_responses" :=
         FFailures [mkGoogleAdsFailure [sub_error 0] "req-1"] ]}
  = Returns {[ "mutate_operation_responses" := FFailures [] ]}.
Proof.
  apply (decoding_twice_loses_failures sample_decode
           (response_with [mkDetail failure_url [Byte.x0a]])).
  reflexivity.
Defined.

End ErrorTranslatorMore.

(** ** Request builder *)

Module RequestBuilderMore.
Import JS RequestBuilder RequestBuilderSamples RequestBuilderFacts ExtraSamples.

Lemma moves_keys_not_object (h : Heap) (e : val) :
  (∀ r, e ≠ VRef r) → moves_keys h e = false.
Proof.
  intros Hne. destruct e as [| |b|n|s|items|r|paths]; try done.
  by destruct (Hne r).
Qed.

Lemma moves_keys_stays_false (h : Heap) (e v : val) :
  moves_keys h v = false →
  moves_keys (delete_property h e "exempt_policy_violation_keys") v = false.
Proof.
  intros H. destruct v as [| |b|n|s|items|r|paths]; try done.
  by apply moves_keys_after_delete.
Qed.

Lemma moves_keys_false_after (h : Heap) (e : val) :
  moves_keys (delete_property h e "exempt_policy_violation_keys") e = false.
Proof.
  destruct e as [| |b|n|s|items|r|paths]; try done.
  apply moves_keys_once.
Qed.

Section More.

Variable Message : Type.
Variable toObject : Message → Heap → val → Heap * val.
Variable getFieldMask : Heap → val → list string.

Lemma step_wraps type message e h op h1 :
  build_operation Message toObject getFieldMask type message e h = (Returns op, h1) →
  op !! type_name type = Some e
  ∧ op !! "operation" = Some (VStr (type_name type)).
Proof.
  destruct type.
  - rewrite build_create. destruct (moves_keys h e); intros [= <- _]; done.
  - destruct message as [m|]; [|done]. rewrite build_update. by intros [= <- _].
  - rewrite build_remove. by intros [= <- _].
Qed.

(** X6: the operations follow the entities.  Whatever the kind, a call of
    [buildOperations] that returns gives one operation per entity, in the
    order of the entities: the operation at index [i] holds the entity at
    index [i] under the key named after the kind, and the kind under
    [operation]. *)
Theorem operations_follow_entities type entities message h ops h' :
  buildOperations Message toObject getFieldMask type entities message h
  = (Returns ops, h') →
  length ops = length entities
  ∧ ∀ i e, entities !! i = Some e →
           ∃ op, ops !! i = Some op
                 ∧ op !! type_name type = Some e
                 ∧ op !! "operation" = Some (VStr (type_name type)).
Proof.
  revert h ops h'. induction entities as [|e0 entities IH]; intros h ops h' Hrun.
  - injection Hrun as <- <-. split; [done|]. intros i e Hi. by rewrite lookup_nil in Hi.
  - rewrite buildOperations_cons in Hrun.
    destruct (build_operation _ _ _ _ _ e0 h) as [[op0|err] h1] eqn:Hstep; [|done].
    destruct (buildOperations _ _ _ _ entities _ h1) as [[ops1|err] h2] eqn:Hrest;
      [|done].
    injection Hrun as <- <-.
    destruct (IH _ _ _ Hrest) as [Hlen Hops].
    split; [simpl; by rewrite Hlen|].
    intros [|i] e Hi; simpl in *.
    + injection Hi as <-. exists op0. split; [done|]. by eapply step_wraps.
    + by apply Hops.
Qed.




(** A [create] call over entities none of which has keys to move is the
    plain wrapping of each, and leaves the heap alone. *)
Lemma create_nothing_to_move message es h :
  (∀ e, e ∈ es → moves_keys h e = false) →
  buildOperations Message toObject getFieldMask create es message h
  = (Returns (envelope create <$> es), h).
Proof.
  induction es as [|e es IH]; intros Hall; [done|].
  rewrite buildOperations_cons, build_create.
  rewrite (Hall e) by apply list_elem_of_here.
  rewrite IH; [done|]. intros e' He'. apply Hall. by apply list_elem_of_further.
Qed.

Lemma create_keeps_false message es h ops h' v :
  buildOperations Message toObject getFieldMask create es message h = (Returns ops, h') →
  moves_keys h v = false → moves_keys h' v = false.
Proof.
  revert h ops h'. induction es as [|e es IH]; intros h ops h' Hrun Hv.
  - by injection Hrun as <- <-.
  - rewrite buildOperations_cons, build_create in Hrun.
    destruct (moves_keys h e).
    + destruct (buildOperations _ _ _ _ es _ _) as [[ops1|err] h2] eqn:Hrest; [|done].
      injection Hrun as <- <-. eapply IH; [done|]. by apply moves_keys_stays_false.
    + destruct (buildOperations _ _ _ _ es _ _) as [[ops1|err] h2] eqn:Hrest; [|done].
      injection Hrun as <- <-. by eapply IH.
Qed.

Lemma create_leaves_nothing_to_move message es h ops h' :
  buildOperations Message toObject getFieldMask create es message h = (Returns ops, h') →
  ∀ e, e ∈ es → moves_keys h' e = false.
Proof.
  revert h ops h'. induction es as [|e0 es IH]; intros h ops h' Hrun e He.
  - by apply elem_of_nil in He.
  - rewrite buildOperations_cons, build_create in Hrun.
    destruct (moves_keys h e0) eqn:Hmove;
      destruct (buildOperations _ _ _ _ es _ _) as [[ops1|err] h2] eqn:Hrest;
      try done; injection Hrun as <- <-;
      (apply elem_of_cons in He as [->|He]; [|by eapply IH]);
      (eapply create_keeps_false; [done|]).
    + apply moves_keys_false_after.
    + done.
Qed.

(** X8: a second [create] call over the same entities finds nothing left.
    After a [create] call, calling [buildOperations] again for the same
    entities (a retry, say) returns the plain envelopes, none with
    exemption keys, and no longer changes any entity. *)
Theorem second_create_has_no_keys message message' entities h ops h' :
  buildOperations Message toObject getFieldMask create entities message h
  = (Returns ops, h') →
  buildOperations Message toObject getFieldMask create entities message' h'
  = (Returns (envelope create <$> entities), h')
  ∧ ∀ op, op ∈ envelope create <$> entities →
          op !! "exempt_policy_violation_keys" = None.
Proof.
  intros Hrun. split.
  - apply create_nothing_to_move. by eapply create_leaves_nothing_to_move.
  - intros op (e & -> & _)%list_elem_of_fmap. done.
Qed.

Lemma create_untouched message es h ops h' r :
  buildOperations Message toObject getFieldMask create es message h = (Returns ops, h') →
  moves_keys h (VRef r) = false → h' !! r = h !! r.
Proof.
  revert h ops h'. induction es as [|e es IH]; intros h ops h' Hrun Hr.
  - by injection Hrun as <- <-.
  - rewrite buildOperations_cons, build_create in Hrun.
    destruct (moves_keys h e) eqn:Hmove.
    + destruct (buildOperations _ _ _ _ es _ _) as [[ops1|err] h2] eqn:Hrest; [|done].
      injection Hrun as <- <-.
      rewrite (IH _ _ _ Hrest) by (by apply moves_keys_stays_false).
      rewrite lookup_delete_property.
      destruct e as [| |b|n|s|items|r0|paths]; try done.
      case_decide as Heq; [|done]. subst r0. congruence.
    + destruct (buildOperations _ _ _ _ es _ _) as [[ops1|err] h2] eqn:Hrest; [|done].
      injection Hrun as <- <-. by eapply IH.
Qed.

(** X9: what a [create] call leaves alone.  No object is added to or taken
    from the heap, every object keeps all its properties other than
    [exempt_policy_violation_keys] with their values, and an object whose
    list of keys is missing or empty is not changed at all: an empty list
    stays in the payload. *)
Theorem create_changes_only_exemption_keys message entities h ops h' :
  buildOperations Message toObject getFieldMask create entities message h
  = (Returns ops, h') →
  (∀ r, is_Some (h' !! r) ↔ is_Some (h !! r))
  ∧ (∀ r k, k ≠ "exempt_policy_violation_keys" →
            (h' !! r ≫= lookup k) = (h !! r ≫= lookup k))
  ∧ (∀ r o, h !! r = Some o →
            o !! "exempt_policy_violation_keys" = None
            ∨ o !! "exempt_policy_violation_keys" = Some (VArr []) →
            h' !! r = Some o).
Proof.
  intros Hrun. split; [|split].
  - intros r.
    destruct (create_frame _ _ _ _ _ _ _ _ Hrun r) as [->|(o & -> & ->)]; [done|].
    split; eauto.
  - intros r k Hk.
    destruct (create_frame _ _ _ _ _ _ _ _ Hrun r) as [->|(o & -> & ->)]; [done|].
    simpl. by rewrite lookup_delete_ne.
  - intros r o Hr Hkeys.
    rewrite (create_untouched _ _ _ _ _ _ Hrun); [done|].
    unfold moves_keys, get_optional. simpl. rewrite Hr.
    by destruct Hkeys as [->| ->].
Qed.

(** X10: the operation that [buildMutationRequestAndService] builds for a
    mutation.  Every property of the resource is a property of the
    operation itself, with its value.  When the resource has no property
    named after a field of the envelope, the operation holds the kind
    ([create] when the mutation names none), the entity, the resource, and
    the mutation's exemption keys, the latter whatever the kind. *)
Theorem mutation_operation_fields (h : Heap) (mutation : Mutation) :
  (∀ k v, own_properties h (resource mutation) !! k = Some v →
          mutation_operation getFieldMask h mutation !! k = Some v)
  ∧ ((∀ k, k ∈ ["operation"; "resource"; "entity";
                "exempt_policy_violation_keys"; "update_mask"] →
           own_properties h (resource mutation) !! k = None) →
     mutation_operation getFieldMask h mutation !! "operation"
     = Some (VStr (type_name (default create (operation mutation))))
     ∧ mutation_operation getFieldMask h mutation !! "entity"
       = Some (VStr (entity mutation))
     ∧ mutation_operation getFieldMask h mutation !! "resource"
       = Some (resource mutation)
     ∧ mutation_operation getFieldMask h mutation !! "exempt_policy_violation_keys"
       = Some (exempt_policy_violation_keys mutation)).
Proof.
  split.
  - intros k v Hk. unfold mutation_operation. by apply lookup_union_Some_l.
  - intros Hnone. unfold mutation_operation.
    repeat split; (rewrite lookup_union_r; [done|]); apply Hnone; set_solver.
Qed.

End More.

Lemma operations_follow_entities_witness :
  ∃ op, [ <[ "update_mask" := VMask ["name"] ]> (envelope update (VRef 1)) ] !! 0%nat
        = Some op
        ∧ op !! "update" = Some (VRef 1)
        ∧ op !! "operation" = Some (VStr "update").
Proof.
  assert (Hrun : buildOperations unit sample_toObject sample_getFieldMask update
                   [VRef 1] (Some tt) sample_heap
                 = (Returns [ <[ "update_mask" := VMask ["name"] ]>
                                (envelope update (VRef 1)) ], sample_heap))
    by (by vm_compute).
  exact (proj2 (operations_follow_entities unit sample_toObject sample_getFieldMask
                  _ _ _ _ _ _ Hrun) 0%nat (VRef 1) eq_refl).
Defined.

Lemma second_create_has_no_keys_witness :
  buildOperations unit sample_toObject sample_getFieldMask create
    [VRef 0; VRef 1] None (<[ 0%nat := {[ "name" := VStr "ad" ]} ]> sample_heap)
  = (Returns (envelope create <$> [VRef 0; VRef 1]),
     <[ 0%nat := {[ "name" := VStr "ad" ]} ]> sample_heap).
Proof.
  assert (Hrun : buildOperations unit sample_toObject sample_getFieldMask create
                   [VRef 0; VRef 1] None sample_heap
                 = (Returns [ <[ "exempt_policy_violation_keys" :=
                                   VArr [VStr "POLICY_X"] ]> (envelope create (VRef 0));
                              envelope create (VRef 1) ],
                    <[ 0%nat := {[ "name" := VStr "ad" ]} ]> sample_heap))
    by (by vm_compute).
  exact (proj1 (second_create_has_no_keys unit sample_toObject sample_getFieldMask
                  None None _ _ _ _ Hrun)).
Defined.

Lemma create_changes_only_exemption_keys_witness :
  (<[ 0%nat := {[ "name" := VStr "ad" ]} ]> sample_heap : Heap) !! 1%nat = Some campaign.
Proof.
  assert (Hrun : buildOperations unit sample_toObject sample_getFieldMask create
                   [VRef 0; VRef 1] None sample_heap
                 = (Returns [ <[ "exempt_policy_violation_keys" :=
                                   VArr [VStr "POLICY_X"] ]> (envelope create (VRef 0));
                              envelope create (VRef 1) ],
                    <[ 0%nat := {[ "name" := VStr "ad" ]} ]> sample_heap))
    by (by vm_compute).
  destruct (create_changes_only_exemption_keys unit sample_toObject sample_getFieldMask
              _ _ _ _ _ Hrun) as (_ & _ & Hsame).
  apply (Hsame 1%nat campaign); [reflexivity|by left].
Defined.

Lemma mutation_operation_fields_witness :
  mutation_operation sample_getFieldMask sample_heap remove_with_keys !! "name"
  = Some (VStr "campaign")
  ∧ mutation_operation sample_getFieldMask sample_heap remove_with_keys
      !! "exempt_policy_violation_keys" = Some (VArr [VStr "POLICY_X"]).
Proof.
  destruct (mutation_operation_fields sample_getFieldMask sample_heap remove_with_keys)
    as [Hflat Henvelope].
  split.
  - apply Hflat. reflexivity.
  - apply Henvelope. intros k Hk.
    repeat (apply elem_of_cons in Hk as [->|Hk]; [reflexivity|]).
    by apply elem_of_nil in Hk.
Defined.

End RequestBuilderMore.

(** ** Headers, credentials, the cache and the request builders on top of it *)

Module ServiceMore.
Import JS ServiceCache ServiceCacheSamples ServiceCacheFacts ServiceRequests ExtraSamples.

(** X11: the call headers.  [developer-token] is always sent, with the
    token of the client options; [login-customer-id] and
    [linked-customer-id] are sent exactly when they are configured and not
    empty; and no other header is ever sent. *)
Theorem callHeaders_fields (this : Service) :
  callHeaders this !! "developer-token" = Some (developer_token (clientOptions this))
  ∧ callHeaders this !! "login-customer-id"
    = provided (login_customer_id (customerOptions this))
  ∧ callHeaders this !! "linked-customer-id"
    = provided (linked_customer_id (customerOptions this))
  ∧ ∀ k, k ∉ ["developer-token"; "login-customer-id"; "linked-customer-id"] →
         callHeaders this !! k = None.
Proof.
  unfold callHeaders.
  destruct (provided (login_customer_id (customerOptions this))) as [login|];
    destruct (provided (linked_customer_id (customerOptions this))) as [linked|];
    (split; [done|]); (split; [done|]); (split; [done|]);
    intros k Hk;
    repeat (rewrite lookup_insert_ne; [|intros <-; apply Hk; set_solver]);
    (rewrite lookup_singleton_ne; [done|intros <-; apply Hk; set_solver]).
Qed.

Section More.

Variable readFileSync : string → Outcome string.
Variable JSON_parse : string → Outcome json.
Variable google_ads_node : gmap string Export.


Lemma set_entries key v t (cache : list Entry) e :
  e ∈ (set key v t cache).1 → e ∈ cache ∨ e = mkEntry key v (t + ttl).
Proof.
  unfold set, purgeToCapacity. simpl. intros He.
  apply (subseteq_drop _ _ e) in He.
  apply elem_of_app in He as [He|He].
  - left. by apply list_elem_of_filter in He as [_ He].
  - right. by apply list_elem_of_singleton in He.
Qed.




Lemma set_length key v t (cache : list Entry) :
  (length (set key v t cache).1 ≤ max)%nat.
Proof.
  unfold set, purgeToCapacity. simpl. rewrite length_drop. lia.
Qed.

Lemma cache_within_capacity_from history w :
  (length (serviceCache w) ≤ max)%nat →
  (length (serviceCache (run readFileSync JSON_parse google_ads_node history w))
   ≤ max)%nat.
Proof.
  revert w. induction history as [|a history IH]; intros w Hw; [done|].
  simpl. apply IH. destruct a as [this service|dt]; simpl.
  - unfold loadService. cbv zeta.
    destruct (has service (serviceCache w)); [done|].
    destruct (google_ads_node !! service) as [export|]; [|done].
    destruct (getCredentials readFileSync JSON_parse this) as [creds|err]; [|done].
    destruct export; [|done].
    pose proof (set_length service (mkStub (constructed w) service creds) (now w)
                  (serviceCache w)) as Hlen.
    by destruct (set _ _ _ _).
  - etrans; [apply length_filter|done].
Qed.

Lemma cache_live_from history w :
  (∀ e, e ∈ serviceCache w → (now w < entry_expires e ≤ now w + ttl)%N) →
  let w' := run readFileSync JSON_parse google_ads_node history w in
  ∀ e, e ∈ serviceCache w' → (now w' < entry_expires e ≤ now w' + ttl)%N.
Proof.
  revert w. induction history as [|a history IH]; intros w Hw; [done|].
  simpl. apply IH. intros e He. destruct a as [this service|dt].
  - simpl in He |- *. revert He. unfold loadService. cbv zeta.
    destruct (has service (serviceCache w)); [by apply Hw|].
    destruct (google_ads_node !! service) as [export|]; [|by apply Hw].
    destruct (getCredentials readFileSync JSON_parse this) as [creds|err];
      [|by apply Hw].
    destruct export; [|by apply Hw].
    destruct (set service _ (now w) (serviceCache w)) as [kept disposed] eqn:Hset.
    simpl. intros He.
    assert (He' : e ∈ (set service (mkStub (constructed w) service creds) (now w)
                         (serviceCache w)).1) by (by rewrite Hset).
    apply set_entries in He' as [He'| ->]; [by apply Hw|].
    simpl. unfold ttl. lia.
  - simpl in *. apply list_elem_of_filter in He as [Hlive He].
    apply Hw in He. lia.
Qed.

(** X22: the bounds of the cache.  In every state it can reach, the cache
    holds at most 1000 entries, and every entry in it is live and younger
    than the TTL: its expiry lies ahead, at most 10 minutes ahead. *)
Theorem cache_bounded history :
  let w := run readFileSync JSON_parse google_ads_node history init in
  (length (serviceCache w) ≤ 1000)%nat
  ∧ ∀ e, e ∈ serviceCache w →
         (now w < entry_expires e ≤ now w + 600000)%N.
Proof.
  intros w. split.
  - apply (cache_within_capacity_from history init). simpl. unfold max. lia.
  - apply (cache_live_from history init). intros e He. by apply elem_of_nil in He.
Qed.

(** The package exports no more names than the cache can hold. *)
Hypothesis exports_fit : (size google_ads_node ≤ max)%nat.

(** X14: what holds of the cache in every state it can reach: there is at
    most one entry per service name, no stub in the cache has received
    [close()], only stubs that were constructed have received it, and no
    stub has received it twice. *)
Theorem cache_stays_consistent history :
  let w := run readFileSync JSON_parse google_ads_node history init in
  NoDup (entry_key <$> serviceCache w)
  ∧ (∀ e, e ∈ serviceCache w → stub_id (entry_value e) ∉ closed w)
  ∧ (∀ id, id ∈ closed w → (id < constructed w)%nat)
  ∧ NoDup (closed w).
Proof.
  intros w.
  assert (Hw : consistent google_ads_node w)
    by (by apply consistent_run, consistent_init).
  split; [apply (keys_distinct _ _ Hw)|].
  split; [apply (stubs_open _ _ Hw)|].
  split; [apply (closed_constructed _ _ Hw)|apply (closed_once _ _ Hw)].
Qed.

Lemma get_entry key a (cache : list Entry) :
  get key cache = Some a → ∃ e, e ∈ cache ∧ entry_key e = key ∧ entry_value e = a.
Proof.
  unfold get. induction cache as [|e cache IH]; [done|].
  simpl. destruct (has_key key e) eqn:Hkey.
  - intros [= <-]. exists e. split; [apply list_elem_of_here|].
    split; [by apply String.eqb_eq in Hkey|done].
  - intros H. destruct (IH H) as (e' & He' & Hk & Hv).
    exists e'. split; [by apply list_elem_of_further|done].
Qed.

(** X23: [loadService] never hands out a stub that has been closed.  In
    every state the cache can reach, the stub that a call returns, cached
    or just constructed, has received no [close()] call, and is the stub
    held for that service name, in an entry that has not expired. *)
Theorem loaded_stub_is_open history this service a w1 :
  let w := run readFileSync JSON_parse google_ads_node history init in
  loadService readFileSync JSON_parse google_ads_node this service w
  = (Returns (Some a), w1) →
  close_calls a w1 = 0%nat
  ∧ ∃ e, e ∈ serviceCache w1 ∧ entry_key e = service ∧ entry_value e = a
         ∧ (now w1 < entry_expires e)%N.
Proof.
  intros w Hload.
  assert (Hw : consistent google_ads_node w)
    by (by apply consistent_run, consistent_init).
  assert (Hw1 : consistent google_ads_node w1).
  { pose proof (consistent_load readFileSync JSON_parse google_ads_node exports_fit
                  this service w Hw) as H. by rewrite Hload in H. }
  assert (Hlive : ∀ e, e ∈ serviceCache w1 → (now w1 < entry_expires e ≤ now w1 + ttl)%N).
  { pose proof (cache_live_from (history ++ [Load this service]) init) as H.
    unfold run in H. rewrite fold_left_app in H. simpl in H.
    fold (run readFileSync JSON_parse google_ads_node history init) in H.
    fold w in H. rewrite Hload in H. simpl in H. apply H.
    intros e He. by apply elem_of_nil in He. }
  assert (Hentry : ∃ e, e ∈ serviceCache w1 ∧ entry_key e = service ∧ entry_value e = a).
  { destruct (loadService_cases readFileSync JSON_parse google_ads_node exports_fit
                this service w Hw) as [(Hsame & Hhit & Hthrow)|(creds & _ & _ & _ & Hmiss)].
    - rewrite Hload in Hsame, Hhit, Hthrow. simpl in *. subst w1.
      destruct (has service (serviceCache w)) eqn:Hhas.
      + specialize (Hhit eq_refl). injection Hhit as Hget.
        symmetry in Hget. by apply get_entry.
      + by destruct (Hthrow eq_refl).
    - rewrite Hload in Hmiss. injection Hmiss as -> ->.
      eexists. split; [simpl; apply elem_of_app; right; by apply list_elem_of_singleton|].
      done. }
  destruct Hentry as (e & He & Hkey & Hvalue).
  split.
  - apply never_closed. rewrite <- Hvalue. by apply (stubs_open _ _ Hw1).
  - exists e. split; [done|]. split; [done|]. split; [done|]. by apply Hlive.
Qed.

Lemma load_again history this this' service result w1 :
  let w := run readFileSync JSON_parse google_ads_node history init in
  loadService readFileSync JSON_parse google_ads_node this service w
  = (Returns result, w1) →
  loadService readFileSync JSON_parse google_ads_node this' service w1
  = (Returns result, w1).
Proof.
  intros w Hload.
  assert (Hw : consistent google_ads_node w)
    by (by apply consistent_run, consistent_init).
  destruct (loadService_cases readFileSync JSON_parse google_ads_node exports_fit
              this service w Hw) as [(Hsame & Hhit & Hthrow)|(creds & _ & _ & _ & Hmiss)].
  - rewrite Hload in Hsame, Hhit, Hthrow. simpl in *. subst w1.
    destruct (has service (serviceCache w)) eqn:Hhas.
    + rewrite loadService_hit by done. by rewrite (Hhit eq_refl).
    + by destruct (Hthrow eq_refl).
  - rewrite Hload in Hmiss. injection Hmiss as -> ->.
    assert (Hw1 : consistent google_ads_node
              (loadService readFileSync JSON_parse google_ads_node this service w).2)
      by (by apply consistent_load).
    rewrite Hload in Hw1. simpl in Hw1.
    rewrite loadService_hit.
    + simpl. erewrite get_held; [done|apply (keys_distinct _ _ Hw1)|].
      simpl. apply elem_of_app. right. by apply list_elem_of_singleton.
    + apply has_true. simpl. rewrite fmap_app. apply elem_of_app. right.
      by apply list_elem_of_singleton.
Qed.

(** X15: stubs are shared across sessions.  Right after a call of
    [loadService] has returned, the same call by any other [Service]
    instance returns the very same result and changes nothing, whatever the
    credentials of that instance are, and even when its [getCredentials]
    would throw.  A stub that the first call constructed carries the
    credentials of the first instance. *)
Theorem stub_shared_across_sessions history this service result w1 :
  let w := run readFileSync JSON_parse google_ads_node history init in
  loadService readFileSync JSON_parse google_ads_node this service w
  = (Returns result, w1) →
  (∀ this', loadService readFileSync JSON_parse google_ads_node this' service w1
            = (Returns result, w1))
  ∧ (has service (serviceCache w) = false →
     ∃ a, result = Some a
          ∧ getCredentials readFileSync JSON_parse this
            = Returns (stub_credentials a)).
Proof.
  intros w Hload. split.
  - intros this'. by eapply load_again.
  - intros Hhas.
    assert (Hw : consistent google_ads_node w)
      by (by apply consistent_run, consistent_init).
    destruct (loadService_cases readFileSync JSON_parse google_ads_node exports_fit
                this service w Hw) as [(_ & _ & Hthrow)|(creds & _ & _ & Hcreds & Hmiss)].
    + destruct (Hthrow Hhas) as [err Herr]. by rewrite Hload in Herr.
    + rewrite Hload in Hmiss. injection Hmiss as -> _. eauto.
Qed.


End More.

(** X17: [buildRequest].  The request holds every option given; it holds
    the operations handed in, as they are and in their order, and the
    customer id of the session, unless an option of that name replaces
    them; and it holds nothing else. *)
Theorem buildRequest_fields (this : Service) (operations : list (gmap string val))
    (options : option (gmap string val)) :
  (∀ k v, spread options !! k = Some v →
          buildRequest this operations options !! k = Some (FieldValue v))
  ∧ (spread options !! "operations" = None →
     buildRequest this operations options !! "operations"
     = Some (FieldOperations operations))
  ∧ (spread options !! "customer_id" = None →
     buildRequest this operations options !! "customer_id"
     = Some (FieldValue (VStr (customer_id (customerOptions this)))))
  ∧ (∀ k, spread options !! k = None → k ≠ "operations" → k ≠ "customer_id" →
          buildRequest this operations options !! k = None).
Proof.
  unfold buildRequest. split; [|split; [|split]].
  - intros k v Hk. apply lookup_union_Some_l. by rewrite lookup_fmap, Hk.
  - intros Hnone. rewrite lookup_union_r; [done|]. by rewrite lookup_fmap, Hnone.
  - intros Hnone. rewrite lookup_union_r; [done|]. by rewrite lookup_fmap, Hnone.
  - intros k Hnone Hops Hid. rewrite lookup_union_r by (by rewrite lookup_fmap, Hnone).
    rewrite lookup_insert_ne by done. by rewrite lookup_singleton_ne.
Qed.

Lemma callHeaders_fields_witness :
  callHeaders manager_session !! "login-customer-id" = Some "9999999999"
  ∧ callHeaders manager_session !! "linked-customer-id" = None
  ∧ callHeaders manager_session !! "authorization" = None.
Proof.
  destruct (callHeaders_fields manager_session) as (_ & Hlogin & Hlinked & Hother).
  split; [exact Hlogin|]. split; [exact Hlinked|].
  apply Hother. intros Hin.
  repeat (apply elem_of_cons in Hin as [Hin|Hin]; [discriminate Hin|]).
  by apply elem_of_nil in Hin.
Defined.


Lemma cache_stays_consistent_witness :
  NoDup (closed (run read_nothing parse_nothing two_services
                   [Load customer "GoogleAdsServiceClient"; Elapse 600000;
                    Load customer "GoogleAdsServiceClient"; Elapse 600000] init)).
Proof.
  assert (Hfit : (size two_services ≤ max)%nat) by (vm_compute; lia).
  apply (cache_stays_consistent read_nothing parse_nothing two_services Hfit
           [Load customer "GoogleAdsServiceClient"; Elapse 600000;
            Load customer "GoogleAdsServiceClient"; Elapse 600000]).
Defined.

Lemma loaded_stub_is_open_witness :
  close_calls first_stub
    (loadService read_nothing parse_nothing two_services customer
       "GoogleAdsServiceClient" init).2 = 0%nat.
Proof.
  assert (Hfit : (size two_services ≤ max)%nat) by (vm_compute; lia).
  apply (proj1 (loaded_stub_is_open read_nothing parse_nothing two_services Hfit
                  [] customer "GoogleAdsServiceClient" first_stub _ eq_refl)).
Defined.

Lemma stub_shared_across_sessions_witness :
  loadService read_nothing parse_nothing two_services other_session
    "GoogleAdsServiceClient"
    (loadService read_nothing parse_nothing two_services customer
       "GoogleAdsServiceClient" init).2
  = (Returns (Some first_stub),
     (loadService read_nothing parse_nothing two_services customer
        "GoogleAdsServiceClient" init).2).
Proof.
  assert (Hfit : (size two_services ≤ max)%nat) by (vm_compute; lia).
  apply (proj1 (stub_shared_across_sessions read_nothing parse_nothing two_services
                  Hfit [] customer "GoogleAdsServiceClient" (Some first_stub) _
                  eq_refl)).
Defined.


Lemma buildRequest_fields_witness :
  buildRequest customer [] (Some page_options) !! "page_size"
  = Some (FieldValue (VNum 100))
  ∧ buildRequest customer [] (Some page_options) !! "operations"
    = Some (FieldOperations []).
Proof.
  destruct (buildRequest_fields customer [] (Some page_options))
    as (Hoptions & Hoperations & _).
  split; [by apply Hoptions|by apply Hoperations].
Defined.

End ServiceMore.

(** ** Credential provider *)

Module CredentialsMore.
Import JS Credentials CredentialsSamples.

Section More.

Variable JSON_parse : string → Outcome json.
Variable Date_now : Z.
Variable jwt_sign : JwtPayload → option json → string → Outcome string.
Variable token_endpoint : HttpRequest → HttpReply.

(** X18: the assertion that gets signed.  For a key document other than
    [null], [generateJWT] is one call of [jwt.sign] with the algorithm
    RS256, the document's [private_key], and a payload whose issuer and
    subject are both the document's [client_email], whose audience is the
    token endpoint, whose [iat] is the current time in whole seconds and
    whose [exp] is one hour later.  For the document [null] it throws a
    [TypeError] and signs nothing. *)
Theorem generateJWT_payload (serviceAccountKey : json) :
  match serviceAccountKey with
  | JNull =>
      ∃ err, generateJWT Date_now jwt_sign serviceAccountKey = Throws err
             ∧ err_name err = "TypeError"
  | _ =>
      ∃ payload email key,
        json_get serviceAccountKey "client_email" = Returns email
        ∧ json_get serviceAccountKey "private_key" = Returns key
        ∧ generateJWT Date_now jwt_sign serviceAccountKey
          = jwt_sign payload key "RS256"
        ∧ iss payload = email ∧ sub payload = email
        ∧ aud payload = "https://oauth2.googleapis.com/token"
        ∧ scope payload = "https://www.googleapis.com/auth/adwords"
        ∧ (iat payload * 1000 ≤ Date_now < iat payload * 1000 + 1000)%Z
        ∧ exp payload = (iat payload + 3600)%Z
  end.
Proof.
  assert (Hiat : (Date_now / 1000 * 1000 ≤ Date_now < Date_now / 1000 * 1000 + 1000)%Z).
  { pose proof (Z.div_mod Date_now 1000 ltac:(lia)).
    pose proof (Z.mod_pos_bound Date_now 1000 ltac:(lia)). lia. }
  destruct serviceAccountKey; unfold generateJWT; simpl;
    try (eexists _, _, _; split; [reflexivity|]; split; [reflexivity|];
         split; [reflexivity|]; simpl; repeat split; (done || lia)).
  eexists. split; [reflexivity|done].
Qed.

(** X19: one exchange.  A call of [exchangeJWTForAccessToken] issues
    exactly one request, a POST of the JWT-bearer grant with the token as
    assertion to the token endpoint.  Its promise is fulfilled only by a
    2xx reply, with whatever the body holds under [access_token], nothing
    at all included, and then nothing is logged; in every other case the
    promise is rejected, and the error it is rejected with is the one
    error logged. *)
Theorem exchange_outcomes (jwtToken : string) (w : World) :
  let request :=
    mkHttpRequest "https://oauth2.googleapis.com/token"
      (mkTokenData "urn:ietf:params:oauth:grant-type:jwt-bearer" jwtToken) in
  let result := exchangeJWTForAccessToken token_endpoint jwtToken w in
  requests result.2 = (requests w ++ [request])%list
  ∧ dropped result.2 = dropped w
  ∧ match result.1 with
    | Fulfilled token =>
        console result.2 = console w
        ∧ ∃ status data t,
            token_endpoint request = Reply status data
            ∧ (200 ≤ status < 300)%Z
            ∧ json_get data "access_token" = Returns t
            ∧ token = AccessToken t
    | Rejected err =>
        console result.2 = (console w ++ [err])%list
    end.
Proof.
  intros request result. unfold result, exchangeJWTForAccessToken, axios_post.
  fold request.
  destruct (token_endpoint request) as [status data|err] eqn:Hreply; [|done].
  destruct ((200 <=? status)%Z && (status <? 300)%Z) eqn:Hstatus; [|done].
  destruct (json_get data "access_token") as [t|err] eqn:Hget; [|done].
  simpl. split; [done|]. split; [done|]. split; [done|].
  exists status, data, t. split; [done|]. split; [lia|done].
Qed.

Lemma exchange_effects (jwtToken : string) (w : World) :
  requests (exchangeJWTForAccessToken token_endpoint jwtToken w).2
  = (requests w
       ++ [mkHttpRequest "https://oauth2.googleapis.com/token"
             (mkTokenData "urn:ietf:params:oauth:grant-type:jwt-bearer" jwtToken)])%list
  ∧ dropped (exchangeJWTForAccessToken token_endpoint jwtToken w).2 = dropped w.
Proof.
  unfold exchangeJWTForAccessToken, axios_post.
  destruct (token_endpoint _) as [status data|err]; [|done].
  destruct ((200 <=? status)%Z && (status <? 300)%Z); [|done].
  by destruct (json_get data "access_token").
Qed.

(** X20: a construction that throws has done nothing.  When [new Client]
    throws, the key is set and not empty, the error is the one that parsing
    the key or building the assertion threw, and no request has been
    issued, nothing logged and no promise created. *)
Theorem failed_construction_is_clean opts w err w' :
  constructor JSON_parse Date_now jwt_sign token_endpoint opts w = (Throws err, w') →
  w' = w
  ∧ ∃ key, service_account_key opts = Some key ∧ key ≠ ""
           ∧ (JSON_parse key = Throws err
              ∨ ∃ doc, JSON_parse key = Returns doc
                       ∧ generateJWT Date_now jwt_sign doc = Throws err).
Proof.
  unfold constructor, initializeServiceAccountFlow. simpl.
  destruct (service_account_key opts) as [key|] eqn:Hkey; simpl; [|done].
  destruct (String.eqb key "") eqn:Hempty; simpl; [done|].
  apply String.eqb_neq in Hempty.
  destruct (JSON_parse key) as [doc|err'] eqn:Hparse.
  - destruct (generateJWT Date_now jwt_sign doc) as [jwtToken|err'] eqn:Hjwt.
    + by destruct (exchangeJWTForAccessToken token_endpoint jwtToken w).
    + intros [= <- <-]. split; [done|]. exists key. eauto 6.
  - intros [= <- <-]. split; [done|]. exists key. eauto.
Qed.

(** X21: a construction that returns.  The client returned never holds an
    access token yet.  Without a key (none, or an empty one) nothing has
    been parsed or sent; with a key, exactly one request has been issued,
    carrying the signed assertion, and exactly one promise has been
    created and dropped, the one whose settling would store the token. *)
Theorem construction_returns_without_token opts w this w' :
  constructor JSON_parse Date_now jwt_sign token_endpoint opts w = (Returns this, w') →
  this = mkClient opts NoToken
  ∧ match service_account_key opts with
    | None | Some "" => w' = w
    | Some key =>
        ∃ doc jwtToken,
          JSON_parse key = Returns doc
          ∧ generateJWT Date_now jwt_sign doc = Returns jwtToken
          ∧ requests w'
            = (requests w
                 ++ [mkHttpRequest "https://oauth2.googleapis.com/token"
                       (mkTokenData "urn:ietf:params:oauth:grant-type:jwt-bearer"
                          jwtToken)])%list
          ∧ dropped w'
            = (dropped w ++ [(exchangeJWTForAccessToken token_endpoint jwtToken w).1])%list
    end.
Proof.
  unfold constructor, initializeServiceAccountFlow. simpl.
  destruct (service_account_key opts) as [key|] eqn:Hkey; simpl;
    [|by intros [= <- <-]].
  destruct key as [|c key]; simpl; [by intros [= <- <-]|].
  destruct (JSON_parse (String c key)) as [doc|err'] eqn:Hparse; [|done].
  destruct (generateJWT Date_now jwt_sign doc) as [jwtToken|err'] eqn:Hjwt; [|done].
  pose proof (exchange_effects jwtToken w) as (Hreq & Hdrop).
  destruct (exchangeJWTForAccessToken token_endpoint jwtToken w)
    as [promise w1] eqn:Hexchange.
  simpl in *. intros [= <- <-]. split; [done|].
  exists doc, jwtToken. simpl. rewrite Hreq, Hdrop, Hexchange.
  split; [reflexivity|]. split; [exact Hjwt|]. split; reflexivity.
Qed.

End More.

Lemma failed_construction_is_clean_witness :
  ∃ key, service_account_key (options_with (Some "{not json")) = Some key ∧ key ≠ "".
Proof.
  destruct (failed_construction_is_clean sample_parse 1700000000000 sample_sign
              endpoint_granting (options_with (Some "{not json")) quiet
              (mkError "SyntaxError" "Unexpected token in JSON") quiet eq_refl)
    as (_ & key & Hkey & Hne & _).
  by exists key.
Defined.

Lemma construction_returns_without_token_witness :
  ∃ doc jwtToken,
    sample_parse key_text = Returns doc
    ∧ generateJWT 1700000000000 sample_sign doc = Returns jwtToken
    ∧ [exchange_request]
      = ([] ++ [mkHttpRequest "https://oauth2.googleapis.com/token"
                  (mkTokenData "urn:ietf:params:oauth:grant-type:jwt-bearer"
                     jwtToken)])%list.
Proof.
  destruct (construction_returns_without_token sample_parse 1700000000000 sample_sign
              endpoint_granting (options_with (Some key_text)) quiet
              (mkClient (options_with (Some key_text)) NoToken)
              (mkWorld [exchange_request] []
                 [Fulfilled (AccessToken (Some (JStr "ya29.token")))])
              eq_refl) as (_ & doc & jwtToken & Hparse & Hjwt & Hrequests & _).
  by exists doc, jwtToken.
Defined.

End CredentialsMore.
